(** * music_graph: the directed graph engine of [graph.py]

    A shallow embedding of the classes [Node], [Edge] and [Graph] of
    [src/graph.py] (with the node and edge variants of [src/model.py]),
    followed by the properties of storage, of [path_exists] and of
    [show_subgraphs].

    Conventions of the embedding:
    - a Python [dict] is an association list in insertion order (Python
      dictionaries iterate in insertion order, and [show_subgraphs] iterates
      over [self.nodes.values()]);
    - Python integers are [Z];
    - a method that mutates [self] takes the graph and returns the new graph;
      the calls to [logger.warning] are returned next to it;
    - the [while] loop of [path_exists] takes fuel; [path_fuel] is a bound
      that is proved to be enough. *)

From Stdlib Require Import List ZArith QArith Lia Bool String Permutation.
From Stdlib Require Import Relations.Relation_Definitions Relations.Relation_Operators.
From Stdlib Require Import Relations.Operators_Properties.
From Stdlib Require Import Sorting.Sorted.
Import ListNotations.

Set Implicit Arguments.
Local Open Scope Z_scope.
Local Open Scope list_scope.

(** ** Equality on names: Python's [==] on hashable keys *)

Class EqDec (A : Type) := eq_dec : forall x y : A, {x = y} + {x <> y}.

#[export] Instance Z_EqDec : EqDec Z := Z.eq_dec.
#[export] Instance string_EqDec : EqDec string := string_dec.

(** ** Python dictionaries *)

Module Dict.
Section Dict.
Context {K V : Type} `{EqDec K}.

Definition dict := list (K * V).

(** [d.keys()] and [d.values()], in insertion order. *)
Definition keys (d : dict) : list K := map fst d.
Definition values (d : dict) : list V := map snd d.

(** [k in d.keys()] *)
Definition mem (k : K) (d : dict) : bool :=
  if in_dec eq_dec k (keys d) then true else false.

(** [d.get(k, default)] *)
Fixpoint get (k : K) (d : dict) (default : V) : V :=
  match d with
  | [] => default
  | (k', v) :: d' => if eq_dec k k' then v else get k d' default
  end.

(** [d.update({k : v})]: an existing key keeps its position and takes the
    new value, a new key goes to the end. *)
Fixpoint update (k : K) (v : V) (d : dict) : dict :=
  match d with
  | [] => [(k, v)]
  | (k', v') :: d' =>
      if eq_dec k k' then (k', v) :: d' else (k', v') :: update k v d'
  end.
End Dict.
Arguments dict : clear implicits.
End Dict.

(** ** Node, Edge (graph.py) and their variants (model.py) *)

Section GraphModel.
Context {name_t : Type} `{EqDec name_t} {attr : Type}.

(** [class Node] has the field [name]; the subclasses [Artist], [Release]
    and [Studio] of model.py add two fields each. *)
Inductive NodeKind :=
| Plain
| Artist (value whatever : attr)
| Release (value year : attr)
| Studio (value city : attr).

Record Node := { name : name_t; kind : NodeKind }.

Record Edge := {
  start : name_t;
  end_ : name_t;
  meaning : string;
  weight : Q
}.

(** [Edge(start, end)] with the defaults [meaning="EXAMPLE"], [weight=1]. *)
Definition Edge_default (s e : name_t) : Edge :=
  {| start := s; end_ := e; meaning := "EXAMPLE"; weight := 1%Q |}.

Definition MemberOf (s e : name_t) (w : Q) : Edge :=
  {| start := s; end_ := e; meaning := "MEMBER_OF"; weight := w |}.
Definition PlayedOn (s e : name_t) (w : Q) : Edge :=
  {| start := s; end_ := e; meaning := "PLAYED_ON"; weight := w |}.
Definition RecordedAt (s e : name_t) (w : Q) : Edge :=
  {| start := s; end_ := e; meaning := "RECORDED_AT"; weight := w |}.
Definition AppearedOn (s e : name_t) (w : Q) : Edge :=
  {| start := s; end_ := e; meaning := "APPEARED_ON"; weight := w |}.

(** ** Graph *)

Record Graph := {
  nodes : Dict.dict name_t Node;
  edges : Dict.dict name_t (list Edge);
  num_nodes : Z;
  num_edges : Z
}.

(** The three calls to [logger.warning]. *)
Inductive Warning :=
| IgnoringNodeInsert (n : name_t)
| UnknownStartNode (m : string) (n : name_t)
| UnknownEndNode (m : string) (n : name_t).

(** The state of [self] after the four assignments of [__init__]. *)
Definition empty_graph : Graph :=
  {| nodes := []; edges := []; num_nodes := 0; num_edges := 0 |}.

Definition get_all_nodes (self : Graph) : list Node :=
  Dict.values (nodes self).

Definition get_all_edges (self : Graph) : list Edge :=
  List.concat (Dict.values (edges self)).

Definition add_node (node : Node) (allow_update : bool) (self : Graph)
  : Graph * list Warning :=
  if Dict.mem (name node) (nodes self) && negb allow_update then
    (self, [IgnoringNodeInsert (name node)])
  else
    ({| nodes := Dict.update (name node) node (nodes self);
        edges := edges self;
        num_nodes := num_nodes self + 1;
        num_edges := num_edges self |}, []).

Definition add_edge (edge : Edge) (self : Graph) : Graph * list Warning :=
  if negb (Dict.mem (start edge) (nodes self)) then
    (self, [UnknownStartNode (meaning edge) (start edge)])
  else if negb (Dict.mem (end_ edge) (nodes self)) then
    (self, [UnknownEndNode (meaning edge) (end_ edge)])
  else
    let curr := Dict.get (start edge) (edges self) [] in
    let curr := curr ++ [edge] in
    ({| nodes := nodes self;
        edges := Dict.update (start edge) curr (edges self);
        num_nodes := num_nodes self;
        num_edges := num_edges self + 1 |}, []).

(** A [for] loop calling a mutator on each element, warnings in order. *)
Fixpoint for_each {A : Type} (f : A -> Graph -> Graph * list Warning)
    (xs : list A) (self : Graph) : Graph * list Warning :=
  match xs with
  | [] => (self, [])
  | x :: xs' =>
      let '(self1, w1) := f x self in
      let '(self2, w2) := for_each f xs' self1 in
      (self2, w1 ++ w2)
  end.

(** [Graph(nodes, edges)] *)
Definition Graph_init (ns : list Node) (es : list Edge)
  : Graph * list Warning :=
  let '(self1, w1) := for_each (fun n => add_node n false) ns empty_graph in
  let '(self2, w2) := for_each add_edge es self1 in
  (self2, w1 ++ w2).

(** ** path_exists *)

(** What running a piece of code gives: a value, the [IndexError] of an
    index out of range, or no answer within the fuel. *)
Inductive run (A : Type) :=
| Done (a : A)
| IndexError
| OutOfFuel.
Arguments IndexError {A}.
Arguments OutOfFuel {A}.

(** The loop [for n in options]: [inl p] when it returns [p], [inr queue]
    when it falls through with the queue it has extended. *)
Fixpoint for_options (end' : name_t) (curr : list name_t)
    (options : list name_t) (queue : list (list name_t))
  : list name_t + list (list name_t) :=
  match options with
  | [] => inr queue
  | n :: options' =>
      if eq_dec n end' then inl (rev curr)
      else if in_dec eq_dec n curr then for_options end' curr options' queue
      else for_options end' curr options' (queue ++ [n :: curr])
  end.

(** The loop [while len(queue) > 0]; the result [None] is Python's
    [False]. *)
Fixpoint while_queue (fuel : nat) (self : Graph) (end' : name_t)
    (queue : list (list name_t)) : run (option (list name_t)) :=
  match fuel with
  | O => OutOfFuel
  | S fuel' =>
      match queue with
      | [] => Done None
      | curr :: queue' =>
          match curr with
          | [] => IndexError
          | c0 :: _ =>
              let es := Dict.get c0 (edges self) [] in
              let options := map end_ es in
              match for_options end' curr options queue' with
              | inl p => Done (Some p)
              | inr queue'' => while_queue fuel' self end' queue''
              end
          end
      end
  end.

(** The fuel that is enough: with [b] the length of the longest bucket and
    [k] the number of names a partial path can still take, a path is
    popped at most [tree_size b k] times below it. *)
Fixpoint tree_size (b k : nat) : nat :=
  match k with
  | O => 1
  | S k' => S (b * tree_size b k')
  end.

Definition max_bucket (self : Graph) : nat :=
  list_max (map (@List.length Edge) (Dict.values (edges self))).

Definition path_fuel (self : Graph) : nat :=
  S (tree_size (max_bucket self) (List.length (get_all_edges self))).

(** [path_exists(start, end)]: the loop run on the queue [[[start]]] with
    [path_fuel] rounds. The loop is proved below to end within them with a
    value, so the last branch is never taken. *)
Definition path_exists (self : Graph) (start' end' : name_t)
  : option (list name_t) :=
  match while_queue (path_fuel self) self end' [[start']] with
  | Done r => r
  | _ => None
  end.

(** Python's truth value of what [path_exists] returns: [False] and the
    empty list are false. *)
Definition truthy (r : option (list name_t)) : bool :=
  match r with
  | Some (_ :: _) => true
  | _ => false
  end.

(** ** show_subgraphs *)

(** [for n2 in g]: the value of [found_group] after the loop. *)
Fixpoint scan_group (self : Graph) (n1 : name_t) (g : list name_t) : bool :=
  match g with
  | [] => false
  | n2 :: g' =>
      if truthy (path_exists self n1 n2) then true
      else if truthy (path_exists self n2 n1) then true
      else scan_group self n1 g'
  end.

(** [for g in ans]: [Some ans'] when a group was found and [n1] appended to
    it, [None] when the loop ends with [found_group] false. *)
Fixpoint scan_groups (self : Graph) (n1 : name_t) (ans : list (list name_t))
  : option (list (list name_t)) :=
  match ans with
  | [] => None
  | g :: ans' =>
      if scan_group self n1 g then Some ((g ++ [n1]) :: ans')
      else option_map (cons g) (scan_groups self n1 ans')
  end.

(** One round of [for n1 in all_nodes]. *)
Definition place (self : Graph) (ans : list (list name_t)) (n1 : Node)
  : list (list name_t) :=
  match scan_groups self (name n1) ans with
  | Some ans' => ans'
  | None => ans ++ [[name n1]]
  end.

Definition show_subgraphs (self : Graph) : list (list name_t) :=
  fold_left (place self) (get_all_nodes self) [].

(** ** The vocabulary of the properties *)

(** Every stored edge joins two stored names. *)
Definition edges_closed (self : Graph) : Prop :=
  forall k bucket e,
    In (k, bucket) (edges self) -> In e bucket ->
    In (start e) (Dict.keys (nodes self)) /\
    In (end_ e) (Dict.keys (nodes self)).

(** The shape of a graph that [__init__], [add_node] and [add_edge] have
    built: keys are unique, a node is stored under its name, an edge in the
    bucket of its start, and no edge leaves the stored names. *)
Record wf (self : Graph) : Prop := {
  wf_nodes_nodup : NoDup (Dict.keys (nodes self));
  wf_nodes_named : forall k n, In (k, n) (nodes self) -> name n = k;
  wf_edges_nodup : NoDup (Dict.keys (edges self));
  wf_edges_start :
    forall k bucket e, In (k, bucket) (edges self) -> In e bucket -> start e = k;
  wf_closed : edges_closed self
}.

(** The names a partial path can hold: the start and the ends of edges. *)
Definition universe (self : Graph) (start' : name_t) : list name_t :=
  start' :: map end_ (get_all_edges self).

(** The cycle guard: a partial path has no name twice. *)
Definition guarded (self : Graph) (start' : name_t) (p : list name_t)
  : Prop :=
  NoDup p /\ incl p (universe self start').

(** The measure of the [while] loop: what is left below a partial path,
    summed over the queue. *)
Definition path_weight (self : Graph) (p : list name_t) : nat :=
  tree_size (max_bucket self)
    (S (List.length (get_all_edges self)) - List.length p).

Definition queue_weight (self : Graph) (queue : list (list name_t)) : nat :=
  list_sum (map (path_weight self) queue).

(** [b] is the end of an edge in the bucket [self.edges.get(a, [])]. *)
Definition bucket_edge (self : Graph) (a b : name_t) : Prop :=
  In b (map end_ (Dict.get a (edges self) [])).

(** The graph stores an edge from [a] to [b]. *)
Definition stored_edge (self : Graph) (a b : name_t) : Prop :=
  exists e, In e (get_all_edges self) /\ start e = a /\ end_ e = b.

(** A partial path of the queue, newest name first. *)
Inductive chain (self : Graph) (start' : name_t) : list name_t -> Prop :=
| chain_start : chain self start' [start']
| chain_step n c0 rest :
    chain self start' (c0 :: rest) -> bucket_edge self c0 n ->
    chain self start' (n :: c0 :: rest).

(** Each name of [p] is followed by a name it is related to. *)
Fixpoint linked (R : name_t -> name_t -> Prop) (p : list name_t) : Prop :=
  match p with
  | a :: (b :: _) as p' => R a b /\ linked R p'
  | _ => True
  end.

(** [a] and [b] are members of one group. *)
Definition same_group (ans : list (list name_t)) (a b : name_t) : Prop :=
  exists g, In g ans /\ In a g /\ In b g.

(** [a] and [b] are connected when the direction of the stored edges is
    ignored. *)
Definition weakly_connected (self : Graph) : name_t -> name_t -> Prop :=
  clos_refl_sym_trans name_t (stored_edge self).

(** [b] can be reached from [a] along one or more stored edges. *)
Definition reachable (self : Graph) : name_t -> name_t -> Prop :=
  clos_trans name_t (stored_edge self).

(** The counters against what is stored: [num_edges] is the number of
    stored edges, [num_nodes] is not below the number of stored nodes. *)
Definition counters_bound (self : Graph) : Prop :=
  num_edges self = Z.of_nat (List.length (get_all_edges self)) /\
  Z.of_nat (List.length (nodes self)) <= num_nodes self.

(** The queue of a breadth-first search: paths of [m] names, then paths of
    [m + 1] names. *)
Definition levelled (m : nat) (queue : list (list name_t)) : Prop :=
  exists front back,
    queue = front ++ back /\
    Forall (fun p => List.length p = m) front /\
    Forall (fun p => List.length p = S m) back.

(** [n.name == k] *)
Definition named (k : name_t) (n : Node) : bool :=
  if eq_dec (name n) k then true else false.

(** The test of [add_edge] against the names of the nodes [ns]: both ends
    of [e] are among them. *)
Definition known_ends (ns : list Node) (e : Edge) : bool :=
  (if in_dec eq_dec (start e) (map name ns) then true else false) &&
  (if in_dec eq_dec (end_ e) (map name ns) then true else false).

(** [e.start == k] *)
Definition starts_at (k : name_t) (e : Edge) : bool :=
  if eq_dec (start e) k then true else false.

(** Every stored edge can be travelled back, as when each edge is stored
    with its reverse. *)
Definition two_way (self : Graph) : Prop :=
  forall a b, stored_edge self a b -> reachable self b a.

(** [path_exists] finds nothing, either way, between the first names of
    the groups [g1] and [g2]. *)
Definition apart (self : Graph) (g1 g2 : list name_t) : Prop :=
  forall a b, hd_error g1 = Some a -> hd_error g2 = Some b ->
              truthy (path_exists self b a) = false /\
              truthy (path_exists self a b) = false.

End GraphModel.

Arguments Node : clear implicits.
Arguments NodeKind : clear implicits.
Arguments Edge : clear implicits.
Arguments Graph : clear implicits.
Arguments Warning : clear implicits.
Arguments IndexError {A}.
Arguments OutOfFuel {A}.

(** ** The fixtures of graph.py *)

Module Fixtures.
Definition node (i : Z) : Node Z unit := {| name := i; kind := Plain |}.
Definition edge (s e : Z) : Edge Z := Edge_default s e.

Definition G1 : Graph Z unit :=
  fst (Graph_init (map node [0; 1; 2; 3; 4; 5; 6])
         [edge 0 1; edge 1 2; edge 2 3; edge 3 0; edge 4 5; edge 6 4]).

Definition G2 : Graph Z unit :=
  fst (Graph_init (map node [0; 1; 2; 3; 4; 5; 6; 7; 8; 9])
         [edge 9 1; edge 1 2; edge 5 9; edge 4 0; edge 6 4; edge 7 3]).

(** Two edges into one node from two nodes listed before it. *)
Definition G3 : Graph Z unit :=
  fst (Graph_init (map node [0; 1; 2]) [edge 0 2; edge 1 2]).

(** [Artist(3, value, whatever)] of model.py, to overwrite [Node(3)]. *)
Definition artist3 : Node Z unit := {| name := 3; kind := Artist tt tt |}.

(** Edges stored in both directions between 0, 1 and 2, and a node 3 on its
    own. *)
Definition G4 : Graph Z unit :=
  fst (Graph_init (map node [0; 1; 2; 3])
         [edge 0 1; edge 1 0; edge 2 1; edge 1 2]).

(** A constructor call with a repeated node and an edge to a name that no
    node has. *)
Definition G5_args : list (Node Z unit) * list (Edge Z) :=
  ([node 0; artist3; node 3; node 1], [edge 0 1; edge 1 7; edge 3 0]).
End Fixtures.

(** ** sort_subgroups (graph.py), on integer names *)

Module SortSubgroups.
(** [l.sort(key=key)]: Python's sort is stable, and so is insertion from
    the right, where an element goes before the first element whose key is
    not smaller. *)
Fixpoint insert_by {A : Type} (key : A -> Z) (x : A) (l : list A) : list A :=
  match l with
  | [] => [x]
  | y :: l' => if key x <=? key y then x :: l else y :: insert_by key x l'
  end.

Definition sort_by {A : Type} (key : A -> Z) (l : list A) : list A :=
  fold_right (insert_by key) [] l.

(** [sort_subgroups(gs)]: each group is sorted in place, then the groups are
    sorted by their first name. The key [x[0]] raises [IndexError] on an
    empty group; the keys are computed before anything is moved, so the
    groups then stay in their order. The result is the list after the call
    and how the call ended. *)
Definition sort_subgroups (gs : list (list Z)) : list (list Z) * run unit :=
  let gs1 := map (sort_by (fun x => x)) gs in
  if forallb (fun g => match g with [] => false | _ :: _ => true end) gs1
  then (sort_by (hd 0) gs1, Done tt)
  else (gs1, IndexError).
End SortSubgroups.

(** * Properties *)

(** ** Dictionaries *)

Module DictFacts.
Section DictFacts.
Context {K V : Type} `{EqDec K}.
Implicit Types (d : Dict.dict K V) (k : K) (v : V).

Lemma mem_true d k : Dict.mem k d = true <-> In k (Dict.keys d).
Proof.
  unfold Dict.mem. destruct (in_dec eq_dec k (Dict.keys d)); split;
    intros; try easy; try discriminate.
Qed.

Lemma mem_false d k : Dict.mem k d = false <-> ~ In k (Dict.keys d).
Proof.
  unfold Dict.mem. destruct (in_dec eq_dec k (Dict.keys d)); split;
    intros; try easy; try discriminate.
Qed.

Lemma keys_update_old d k v :
  In k (Dict.keys d) -> Dict.keys (Dict.update k v d) = Dict.keys d.
Proof.
  induction d as [|[k' v'] d IH]; simpl; intros Hin; [easy|].
  destruct (eq_dec k k') as [->|Hne]; simpl; [reflexivity|].
  f_equal. apply IH. destruct Hin; congruence.
Qed.

Lemma keys_update_new d k v :
  ~ In k (Dict.keys d) -> Dict.keys (Dict.update k v d) = Dict.keys d ++ [k].
Proof.
  induction d as [|[k' v'] d IH]; simpl; intros Hin; [easy|].
  destruct (eq_dec k k') as [->|Hne]; simpl; [tauto|].
  f_equal. apply IH. tauto.
Qed.

Lemma in_keys_update d k v k' :
  In k' (Dict.keys (Dict.update k v d)) <-> k' = k \/ In k' (Dict.keys d).
Proof.
  destruct (in_dec eq_dec k (Dict.keys d)) as [Hin|Hin].
  - rewrite keys_update_old by assumption. split; [tauto|].
    intros [->|]; assumption.
  - rewrite keys_update_new, in_app_iff by assumption. simpl.
    split; intros; intuition congruence.
Qed.

Lemma length_update_old d k v :
  In k (Dict.keys d) -> List.length (Dict.update k v d) = List.length d.
Proof.
  intros Hin. rewrite <- (length_map fst (Dict.update k v d)).
  rewrite <- (length_map fst d). fold (Dict.keys d).
  fold (Dict.keys (Dict.update k v d)). now rewrite keys_update_old.
Qed.

Lemma get_update_eq d k v dflt : Dict.get k (Dict.update k v d) dflt = v.
Proof.
  induction d as [|[k' v'] d IH]; simpl.
  - destruct (eq_dec k k); congruence.
  - destruct (eq_dec k k') as [->|Hne]; simpl.
    + destruct (eq_dec k' k'); congruence.
    + destruct (eq_dec k k'); congruence.
Qed.

Lemma get_update_ne d k v k' dflt :
  k' <> k -> Dict.get k' (Dict.update k v d) dflt = Dict.get k' d dflt.
Proof.
  intros Hne. induction d as [|[k0 v0] d IH]; simpl.
  - destruct (eq_dec k' k); congruence.
  - destruct (eq_dec k k0) as [->|Hne0]; simpl.
    + destruct (eq_dec k' k0); congruence.
    + destruct (eq_dec k' k0); congruence.
Qed.

Lemma in_update d k v k' v' :
  In (k', v') (Dict.update k v d) -> (k' = k /\ v' = v) \/ In (k', v') d.
Proof.
  induction d as [|[k0 v0] d IH]; simpl.
  - intros [Heq|[]]. left. split; congruence.
  - destruct (eq_dec k k0) as [->|Hne]; simpl.
    + intros [Heq|Hin]; [left; split; congruence | tauto].
    + intros [Heq|Hin]; [tauto|]. destruct (IH Hin); tauto.
Qed.

(** What [d.get(k, default)] returns is the default or a stored value. *)
Lemma get_stored d k dflt :
  Dict.get k d dflt = dflt \/ In (k, Dict.get k d dflt) d.
Proof.
  induction d as [|[k' v'] d IH]; simpl; [tauto|].
  destruct (eq_dec k k') as [->|Hne]; [tauto|].
  destruct IH; tauto.
Qed.

Lemma get_in_keys d k dflt :
  In k (Dict.keys d) -> In (k, Dict.get k d dflt) d.
Proof.
  induction d as [|[k' v'] d IH]; simpl; [easy|].
  destruct (eq_dec k k') as [->|Hne]; [tauto|].
  intros [Heq|Hin]; [congruence|]. right. now apply IH.
Qed.

Lemma in_update_same d k v : In (k, v) (Dict.update k v d).
Proof.
  induction d as [|[k' v'] d IH]; simpl; [tauto|].
  destruct (eq_dec k k') as [->|Hne]; simpl; tauto.
Qed.

Lemma NoDup_keys_update d k v :
  NoDup (Dict.keys d) -> NoDup (Dict.keys (Dict.update k v d)).
Proof.
  intros Hnd. destruct (in_dec eq_dec k (Dict.keys d)) as [Hin|Hin].
  - now rewrite keys_update_old.
  - rewrite keys_update_new by assumption.
    apply NoDup_app; [assumption | repeat constructor; easy |].
    intros x Hx [<-|[]]. contradiction.
Qed.
End DictFacts.
End DictFacts.

(** ** Storage and mutation *)

Section Mutation.
Context {name_t : Type} `{EqDec name_t} {attr : Type}.
Local Abbreviation Graph := (Graph name_t attr).
Local Abbreviation Node := (Node name_t attr).
Local Abbreviation Edge := (Edge name_t).
Implicit Types (self : Graph) (node : Node) (edge : Edge).

Import DictFacts.

Lemma add_node_rejected self node :
  In (name node) (Dict.keys (nodes self)) ->
  add_node node false self = (self, [IgnoringNodeInsert (name node)]).
Proof.
  intros Hin. unfold add_node.
  apply mem_true in Hin. now rewrite Hin.
Qed.

Lemma add_node_accepted self node allow_update :
  ~ In (name node) (Dict.keys (nodes self)) \/ allow_update = true ->
  add_node node allow_update self =
    ({| nodes := Dict.update (name node) node (nodes self);
        edges := edges self;
        num_nodes := num_nodes self + 1;
        num_edges := num_edges self |}, []).
Proof.
  intros Hor. unfold add_node.
  destruct Hor as [Hnin| ->].
  - apply mem_false in Hnin. now rewrite Hnin.
  - now rewrite andb_false_r.
Qed.

Lemma add_node_keys self node allow_update k :
  In k (Dict.keys (nodes self)) ->
  In k (Dict.keys (nodes (fst (add_node node allow_update self)))).
Proof.
  intros Hin. unfold add_node.
  destruct (Dict.mem (name node) (nodes self) && negb allow_update); simpl;
    [assumption|].
  apply in_keys_update. now right.
Qed.

Lemma add_node_edges self node allow_update :
  edges (fst (add_node node allow_update self)) = edges self.
Proof.
  unfold add_node.
  now destruct (Dict.mem (name node) (nodes self) && negb allow_update).
Qed.

Lemma add_node_present self node allow_update :
  In (name node) (Dict.keys (nodes (fst (add_node node allow_update self)))).
Proof.
  unfold add_node.
  destruct (Dict.mem (name node) (nodes self) && negb allow_update) eqn:E;
    simpl.
  - apply andb_true_iff in E. now apply mem_true.
  - apply in_keys_update. now left.
Qed.

Lemma add_edge_rejected self edge :
  ~ In (start edge) (Dict.keys (nodes self)) \/
  ~ In (end_ edge) (Dict.keys (nodes self)) ->
  fst (add_edge edge self) = self.
Proof.
  intros Hor. unfold add_edge.
  destruct (Dict.mem (start edge) (nodes self)) eqn:Es; simpl; [|reflexivity].
  destruct (Dict.mem (end_ edge) (nodes self)) eqn:Ee; simpl; [|reflexivity].
  apply mem_true in Es, Ee. tauto.
Qed.

Lemma add_edge_nodes self edge :
  nodes (fst (add_edge edge self)) = nodes self.
Proof.
  unfold add_edge.
  destruct (Dict.mem (start edge) (nodes self)); simpl; [|reflexivity].
  now destruct (Dict.mem (end_ edge) (nodes self)).
Qed.

Lemma add_node_closed self node allow_update :
  edges_closed self -> edges_closed (fst (add_node node allow_update self)).
Proof.
  intros Hc k bucket e Hk He. rewrite add_node_edges in Hk.
  destruct (Hc k bucket e Hk He). split; now apply add_node_keys.
Qed.

Lemma add_edge_closed self edge :
  edges_closed self -> edges_closed (fst (add_edge edge self)).
Proof.
  intros Hc. unfold add_edge.
  destruct (Dict.mem (start edge) (nodes self)) eqn:Es; simpl; [|assumption].
  destruct (Dict.mem (end_ edge) (nodes self)) eqn:Ee; simpl; [|assumption].
  apply mem_true in Es, Ee.
  intros k bucket e Hk He. simpl in *.
  apply in_update in Hk. destruct Hk as [[-> ->]|Hk]; [|now apply (Hc k bucket)].
  apply in_app_iff in He. destruct He as [He|[<-|[]]]; [|tauto].
  destruct (get_stored (edges self) (start edge) []) as [Hd|Hs].
  - rewrite Hd in He. destruct He.
  - now apply (Hc _ _ e Hs).
Qed.

Lemma for_each_inv {A : Type} (P : Graph -> Prop)
    (f : A -> Graph -> Graph * list (Warning name_t)) :
  (forall x self, P self -> P (fst (f x self))) ->
  forall xs self, P self -> P (fst (for_each f xs self)).
Proof.
  intros Hf xs. induction xs as [|x xs IH]; simpl; intros self HP; [assumption|].
  specialize (Hf x self HP). destruct (f x self) as [self1 w1]. simpl in Hf.
  specialize (IH self1 Hf). now destruct (for_each f xs self1).
Qed.

Lemma Graph_init_inv (P : Graph -> Prop) :
  P empty_graph ->
  (forall node self, P self -> P (fst (add_node node false self))) ->
  (forall edge self, P self -> P (fst (add_edge edge self))) ->
  forall ns es, P (fst (Graph_init ns es)).
Proof.
  intros H0 Hn He ns es. unfold Graph_init.
  pose proof (@for_each_inv _ P (fun n => add_node n false) Hn ns _ H0) as H1.
  destruct (for_each (fun n => add_node n false) ns empty_graph) as [s1 w1].
  simpl in H1.
  pose proof (@for_each_inv _ P add_edge He es _ H1) as H2.
  destruct (for_each add_edge es s1). exact H2.
Qed.

Lemma empty_graph_closed : edges_closed (@empty_graph name_t attr).
Proof. intros k bucket e []. Qed.

Lemma wf_empty_graph : wf (@empty_graph name_t attr).
Proof.
  split; simpl; try constructor; try easy.
Qed.

Lemma wf_add_node self node allow_update :
  wf self -> wf (fst (add_node node allow_update self)).
Proof.
  intros Hwf.
  pose proof (@add_node_closed self node allow_update (wf_closed Hwf)) as Hc.
  destruct Hwf as [Hnd Hnm Hed Hes _]. revert Hc. unfold add_node.
  destruct (Dict.mem (name node) (nodes self) && negb allow_update); simpl;
    intros Hc; split; simpl; try assumption.
  - now apply NoDup_keys_update.
  - intros k n Hin. apply in_update in Hin.
    destruct Hin as [[-> ->]|Hin]; [reflexivity | now apply Hnm].
Qed.

Lemma wf_add_edge self edge :
  wf self -> wf (fst (add_edge edge self)).
Proof.
  intros Hwf.
  pose proof (@add_edge_closed self edge (wf_closed Hwf)) as Hc.
  destruct Hwf as [Hnd Hnm Hed Hes _]. revert Hc. unfold add_edge.
  destruct (Dict.mem (start edge) (nodes self)); simpl;
    [|intros; now split].
  destruct (Dict.mem (end_ edge) (nodes self)); simpl;
    [|intros; now split].
  intros Hc; split; simpl; try assumption.
  - now apply NoDup_keys_update.
  - intros k bucket e Hin He. apply in_update in Hin.
    destruct Hin as [[-> ->]|Hin]; [|now apply (Hes k bucket)].
    apply in_app_iff in He. destruct He as [He|[<-|[]]]; [|reflexivity].
    destruct (get_stored (edges self) (start edge) []) as [Hd|Hs].
    + rewrite Hd in He. destruct He.
    + now apply (Hes _ _ e Hs).
Qed.

Lemma wf_Graph_init (ns : list Node) (es : list Edge) :
  wf (fst (Graph_init ns es)).
Proof.
  apply Graph_init_inv.
  - apply wf_empty_graph.
  - intros. now apply wf_add_node.
  - intros. now apply wf_add_edge.
Qed.

(** C5. A rejected mutation changes nothing and raises nothing: [add_node]
    of a name that is already a key, without the update flag, returns the
    graph as it was (with one warning), and so does [add_edge] of an edge
    whose start or end is not a key; hence after any [add_node] of a name,
    a second [add_node] of that name without the flag leaves the graph,
    its counter and its stored node, as the first call left it. *)
Theorem rejected_mutation_is_noop self :
  (forall node,
      In (name node) (Dict.keys (nodes self)) ->
      add_node node false self = (self, [IgnoringNodeInsert (name node)])) /\
  (forall edge,
      ~ In (start edge) (Dict.keys (nodes self)) \/
      ~ In (end_ edge) (Dict.keys (nodes self)) ->
      fst (add_edge edge self) = self /\
      exists w, snd (add_edge edge self) = [w]) /\
  (forall node node' allow_update,
      name node' = name node ->
      let self1 := fst (add_node node allow_update self) in
      fst (add_node node' false self1) = self1).
Proof.
  split; [|split].
  - intros node. apply add_node_rejected.
  - intros edge Hor. split; [now apply add_edge_rejected|].
    unfold add_edge.
    destruct (Dict.mem (start edge) (nodes self)) eqn:Es; simpl; [|eauto].
    destruct (Dict.mem (end_ edge) (nodes self)) eqn:Ee; simpl; [|eauto].
    apply mem_true in Es, Ee. tauto.
  - intros node node' allow_update Hname self1.
    rewrite add_node_rejected; [reflexivity|].
    rewrite Hname. apply add_node_present.
Qed.

(** C6. Every stored edge has its start and its end among the keys of
    [nodes]: this holds of a graph as [__init__] returns it, and
    [add_node] and [add_edge] keep it. *)
Theorem edges_closed_invariant :
  (forall ns es, edges_closed (fst (@Graph_init name_t _ attr ns es))) /\
  (forall self node allow_update,
      edges_closed self ->
      edges_closed (fst (add_node node allow_update self))) /\
  (forall self edge,
      edges_closed self -> edges_closed (fst (add_edge edge self))).
Proof.
  split; [|split].
  - apply Graph_init_inv.
    + apply empty_graph_closed.
    + intros. now apply add_node_closed.
    + intros. now apply add_edge_closed.
  - intros. now apply add_node_closed.
  - intros. now apply add_edge_closed.
Qed.

(** C7. [add_node] with [allow_update=True] of a name that is already a key
    stores the new node under that key and leaves the other keys as they
    were, adds one to [num_nodes], and changes neither the keys or the
    size of [nodes] nor [edges] nor [num_edges]; so a counter that was not
    below the number of stored nodes is now above it. *)
Theorem add_node_overwrite self node
    (Hin : In (name node) (Dict.keys (nodes self))) :
  let self' := fst (add_node node true self) in
  (forall dflt, Dict.get (name node) (nodes self') dflt = node) /\
  (forall k dflt, k <> name node ->
      Dict.get k (nodes self') dflt = Dict.get k (nodes self) dflt) /\
  num_nodes self' = num_nodes self + 1 /\
  Dict.keys (nodes self') = Dict.keys (nodes self) /\
  List.length (nodes self') = List.length (nodes self) /\
  edges self' = edges self /\
  num_edges self' = num_edges self /\
  (Z.of_nat (List.length (nodes self)) <= num_nodes self ->
   Z.of_nat (List.length (nodes self')) < num_nodes self').
Proof.
  intros self'. subst self'.
  rewrite add_node_accepted by now right. simpl.
  repeat split.
  - intros. apply get_update_eq.
  - intros. now apply get_update_ne.
  - now apply keys_update_old.
  - now apply length_update_old.
  - rewrite length_update_old by assumption. lia.
Qed.
End Mutation.

(** ** path_exists: the loop returns *)

Section PathTermination.
Context {name_t : Type} `{EqDec name_t} {attr : Type}.
Local Abbreviation Graph := (Graph name_t attr).
Implicit Types (self : Graph) (curr p : list name_t)
  (queue : list (list name_t)).

Import DictFacts.

Lemma tree_size_pos b k : (0 < tree_size b k)%nat.
Proof. destruct k; simpl; lia. Qed.

Lemma bucket_stored self k e :
  In e (Dict.get k (edges self) []) -> In e (get_all_edges self).
Proof.
  intros He. destruct (get_stored (edges self) k []) as [Hd|Hs].
  - rewrite Hd in He. destruct He.
  - unfold get_all_edges. apply in_concat.
    exists (Dict.get k (edges self) []). split; [|assumption].
    unfold Dict.values. now apply (in_map snd _ _ Hs).
Qed.

Lemma bucket_length self k :
  (List.length (Dict.get k (edges self) []) <= max_bucket self)%nat.
Proof.
  destruct (get_stored (edges self) k []) as [Hd|Hs].
  - rewrite Hd. simpl. lia.
  - unfold max_bucket.
    pose proof (proj1 (list_max_le
      (map (@List.length _) (Dict.values (edges self))) _) (le_n _)) as Hall.
    rewrite Forall_forall in Hall. apply Hall.
    apply in_map. unfold Dict.values. now apply (in_map snd _ _ Hs).
Qed.

Lemma guarded_length self start' p :
  guarded self start' p ->
  (List.length p <= S (List.length (get_all_edges self)))%nat.
Proof.
  intros [Hnd Hincl].
  pose proof (NoDup_incl_length Hnd Hincl) as Hle.
  unfold universe in Hle. simpl in Hle. now rewrite length_map in Hle.
Qed.

(** What the loop over [options] does to the queue when it does not
    return: it appends, for some of the options that are not in [curr],
    the path [[n] + curr]. *)
Lemma for_options_falls_through end' curr options queue queue' :
  for_options end' curr options queue = inr queue' ->
  exists news,
    queue' = queue ++ news /\
    (List.length news <= List.length options)%nat /\
    Forall (fun p => exists n, p = n :: curr /\ In n options /\ ~ In n curr)
      news.
Proof.
  revert queue. induction options as [|n options IH]; simpl; intros queue Hf.
  - injection Hf as <-. exists []. rewrite app_nil_r. auto.
  - destruct (eq_dec n end'); [discriminate|].
    destruct (in_dec eq_dec n curr) as [Hin|Hnin].
    + destruct (IH _ Hf) as (news & -> & Hlen & Hall).
      exists news. repeat split; [lia|].
      eapply Forall_impl; [|exact Hall].
      intros p (m & -> & Hm & Hc). exists m. auto.
    + destruct (IH _ Hf) as (news & -> & Hlen & Hall).
      exists ((n :: curr) :: news). rewrite <- app_assoc. simpl.
      repeat split; [lia|]. constructor.
      * exists n. auto.
      * eapply Forall_impl; [|exact Hall].
        intros p (m & -> & Hm & Hc). exists m. auto.
Qed.

Lemma for_options_returns end' curr options queue p :
  for_options end' curr options queue = inl p ->
  p = rev curr /\ In end' options.
Proof.
  revert queue. induction options as [|n options IH]; simpl; intros queue Hf;
    [discriminate|].
  destruct (eq_dec n end') as [->|Hne].
  - injection Hf as <-. auto.
  - destruct (in_dec eq_dec n curr); destruct (IH _ Hf); auto.
Qed.

Lemma queue_weight_app self q1 q2 :
  queue_weight self (q1 ++ q2) = (queue_weight self q1 + queue_weight self q2)%nat.
Proof. unfold queue_weight. now rewrite map_app, list_sum_app. Qed.

Lemma queue_weight_news self curr news :
  Forall (fun p => exists n : name_t, p = n :: curr) news ->
  queue_weight self news =
    (List.length news *
     tree_size (max_bucket self)
       (S (List.length (get_all_edges self)) - S (List.length curr)))%nat.
Proof.
  induction 1 as [|p news (n & ->) _ IH]; [reflexivity|].
  unfold queue_weight in *. simpl. rewrite IH. unfold path_weight. simpl.
  reflexivity.
Qed.

(** One round of the [while] loop that does not return makes the queue
    lighter, and keeps the guard on every path. *)
Lemma round_decreases self start' end' c0 rest queue queue' :
  guarded self start' (c0 :: rest) ->
  for_options end' (c0 :: rest)
    (map end_ (Dict.get c0 (edges self) [])) queue = inr queue' ->
  (queue_weight self queue' < queue_weight self ((c0 :: rest) :: queue))%nat /\
  (Forall (guarded self start') queue ->
   Forall (guarded self start') queue').
Proof.
  intros Hg Hf.
  destruct (for_options_falls_through _ _ _ _ Hf) as (news & -> & Hlen & Hall).
  rewrite length_map in Hlen.
  pose proof (bucket_length self c0) as Hb.
  assert (Hnews : Forall (guarded self start') news).
  { eapply Forall_impl; [|exact Hall].
    intros p (n & -> & Hn & Hnin). destruct Hg as [Hnd Hincl]. split.
    - now constructor.
    - intros x [<-|Hx]; [|now apply Hincl].
      apply in_map_iff in Hn. destruct Hn as (e & <- & He).
      right. apply in_map. now apply (bucket_stored self c0). }
  split.
  - rewrite queue_weight_app.
    rewrite (@queue_weight_news self (c0 :: rest) news).
    2:{ eapply Forall_impl; [|exact Hall]. intros p (n & -> & _). eauto. }
    change (queue_weight self ((c0 :: rest) :: queue))
      with (path_weight self (c0 :: rest) + queue_weight self queue)%nat.
    destruct news as [|p news].
    + simpl. pose proof (tree_size_pos (max_bucket self)
        (S (List.length (get_all_edges self)) - S (List.length rest))).
      unfold path_weight. simpl List.length. lia.
    + apply Forall_inv in Hnews. apply guarded_length in Hnews.
      apply Forall_inv in Hall. destruct Hall as (n & -> & _).
      simpl List.length in *.
      unfold path_weight. simpl List.length.
      set (N := List.length (get_all_edges self)) in *.
      set (L := List.length rest) in *.
      replace (S N - S L)%nat with (S (S N - S (S L)))%nat by lia.
      simpl tree_size.
      set (T := tree_size (max_bucket self) (N - S L)).
      assert (S (List.length news) * T <= max_bucket self * T)%nat
        by (apply Nat.mul_le_mono_r; lia).
      lia.
  - intros Hq. apply Forall_app. auto.
Qed.

Lemma while_queue_returns self start' end' fuel :
  forall queue,
    Forall (guarded self start') queue ->
    Forall (fun p => p <> []) queue ->
    (queue_weight self queue < fuel)%nat ->
    exists r, while_queue fuel self end' queue = Done r.
Proof.
  induction fuel as [|fuel IH]; intros queue Hg Hne Hw; [lia|].
  destruct queue as [|curr queue]; simpl; [eauto|].
  destruct curr as [|c0 rest]; [now apply Forall_inv in Hne|].
  destruct (for_options end' (c0 :: rest)
              (map end_ (Dict.get c0 (edges self) [])) queue)
    as [p|queue'] eqn:Hf; [eauto|].
  destruct (@round_decreases self start' end' c0 rest queue queue'
              (Forall_inv Hg) Hf) as [Hlt Hkeep].
  apply IH.
  - apply Hkeep. now apply Forall_inv_tail in Hg.
  - destruct (for_options_falls_through _ _ _ _ Hf) as (news & -> & _ & Hall).
    apply Forall_app. split; [now apply Forall_inv_tail in Hne|].
    eapply Forall_impl; [|exact Hall]. intros p (n & -> & _). discriminate.
  - lia.
Qed.

Lemma while_queue_more_fuel self end' fuel :
  forall queue r fuel',
    while_queue fuel self end' queue = Done r ->
    (fuel <= fuel')%nat ->
    while_queue fuel' self end' queue = Done r.
Proof.
  induction fuel as [|fuel IH]; intros queue r fuel' Hr Hle; [discriminate|].
  destruct fuel' as [|fuel']; [lia|]. simpl in *.
  destruct queue as [|[|c0 rest] queue]; try assumption.
  destruct (for_options end' (c0 :: rest)
              (map end_ (Dict.get c0 (edges self) [])) queue); [assumption|].
  apply IH; [assumption | lia].
Qed.

Lemma start_guarded self start' : guarded self start' [start'].
Proof.
  split; [repeat constructor; easy|]. intros x [<-|[]]. now left.
Qed.

Lemma path_exists_runs self start' end' :
  while_queue (path_fuel self) self end' [[start']] =
    Done (path_exists self start' end').
Proof.
  unfold path_exists.
  destruct (@while_queue_returns self start' end' (path_fuel self) [[start']])
    as [r ->]; [| |  |reflexivity].
  - constructor; [apply start_guarded | constructor].
  - constructor; [discriminate | constructor].
  - unfold queue_weight, path_fuel, path_weight. simpl.
    rewrite Nat.sub_0_r. lia.
Qed.

(** C8. [path_exists] returns, for every graph, start and end: there is a
    number of rounds, [path_fuel], within which the [while] loop ends with
    a result (a path or [False], never an [IndexError]), and more rounds
    do not change that result; [path_exists] is that result. *)
Theorem path_exists_terminates self start' end' :
  exists r,
    (forall fuel, (path_fuel self <= fuel)%nat ->
       while_queue fuel self end' [[start']] = Done r) /\
    path_exists self start' end' = r.
Proof.
  exists (path_exists self start' end'). split; [|reflexivity].
  intros fuel Hle.
  apply (@while_queue_more_fuel self end' (path_fuel self)); [|assumption].
  apply path_exists_runs.
Qed.
End PathTermination.

(** ** path_exists: what it returns *)

Section PathSound.
Context {name_t : Type} `{EqDec name_t} {attr : Type}.
Local Abbreviation Graph := (Graph name_t attr).
Implicit Types (self : Graph) (curr p : list name_t)
  (queue : list (list name_t)).

Import DictFacts.

Lemma bucket_edge_stored self a b :
  wf self -> bucket_edge self a b -> stored_edge self a b.
Proof.
  intros Hwf Hb. apply in_map_iff in Hb. destruct Hb as (e & He & Hin).
  exists e. split; [now apply (bucket_stored self a)|]. split; [|assumption].
  destruct (get_stored (edges self) a []) as [Hd|Hs].
  - rewrite Hd in Hin. destruct Hin.
  - now apply (wf_edges_start Hwf _ _ _ Hs).
Qed.

Lemma linked_snoc R p a n :
  linked R (p ++ [a]) -> R a n -> linked R ((p ++ [a]) ++ [n]).
Proof.
  induction p as [|x p IH]; simpl; intros Hl HR; [tauto|].
  destruct p as [|y p]; simpl in *; [tauto|].
  destruct Hl as [Hxy Hl]. split; [assumption|]. now apply IH.
Qed.

Lemma linked_impl (R R' : name_t -> name_t -> Prop) p :
  (forall a b, R a b -> R' a b) -> linked R p -> linked R' p.
Proof.
  intros HR. induction p as [|a p IH]; simpl; [tauto|].
  destruct p as [|b p]; [tauto|]. intros [Hab Hl]. split; auto.
Qed.

Lemma linked_nth R p :
  linked R p ->
  forall i a b,
    nth_error p i = Some a -> nth_error p (S i) = Some b -> R a b.
Proof.
  induction p as [|x p IH]; intros Hl i a b Ha Hb.
  - destruct i; discriminate.
  - destruct p as [|y p]; [destruct i; simpl in Hb; try discriminate;
                           destruct i; discriminate|].
    destruct Hl as [Hxy Hl]. destruct i as [|i].
    + simpl in Ha, Hb. congruence.
    + apply (IH Hl i); assumption.
Qed.

Lemma chain_rev self start' curr :
  chain self start' curr ->
  (exists l, rev curr = start' :: l) /\ linked (bucket_edge self) (rev curr).
Proof.
  induction 1 as [|n c0 rest Hc [[l Hl] IH] Hb].
  - simpl. eauto.
  - split.
    + exists (l ++ [n]). change (rev (n :: c0 :: rest))
        with (rev (c0 :: rest) ++ [n]). now rewrite Hl.
    + change (rev (n :: c0 :: rest)) with ((rev rest ++ [c0]) ++ [n]).
      apply linked_snoc; assumption.
Qed.

(** The paths of the queue stay guarded chains, and a returned path is one
    of them, reversed, whose newest name has an edge to [end']. *)
Lemma while_queue_found self start' end' fuel :
  forall queue p,
    Forall (fun c => NoDup c /\ chain self start' c) queue ->
    while_queue fuel self end' queue = Done (Some p) ->
    exists c0 rest,
      p = rev (c0 :: rest) /\ NoDup (c0 :: rest) /\
      chain self start' (c0 :: rest) /\ bucket_edge self c0 end'.
Proof.
  induction fuel as [|fuel IH]; intros queue p Hq Hr; [discriminate|].
  simpl in Hr. destruct queue as [|[|c0 rest] queue]; try discriminate.
  destruct (for_options end' (c0 :: rest)
              (map end_ (Dict.get c0 (edges self) [])) queue)
    as [p'|queue'] eqn:Hf.
  - injection Hr as <-. destruct (for_options_returns _ _ _ _ Hf) as [-> Hin].
    destruct (Forall_inv Hq) as [Hnd Hc]. exists c0, rest. auto.
  - apply (IH queue' p); [|assumption].
    destruct (for_options_falls_through _ _ _ _ Hf) as (news & -> & _ & Hall).
    apply Forall_app. split; [now apply Forall_inv_tail in Hq|].
    destruct (Forall_inv Hq) as [Hnd Hc].
    eapply Forall_impl; [|exact Hall].
    intros c (n & -> & Hn & Hnin). split; constructor; assumption.
Qed.

Lemma path_exists_found self start' end' p :
  path_exists self start' end' = Some p ->
  exists c0 rest,
    p = rev (c0 :: rest) /\ NoDup (c0 :: rest) /\
    chain self start' (c0 :: rest) /\ bucket_edge self c0 end'.
Proof.
  intros Hp. pose proof (@path_exists_runs _ _ attr self start' end') as Hrun.
  rewrite Hp in Hrun.
  apply (@while_queue_found self start' end' (path_fuel self) [[start']] p);
    [|assumption].
  constructor; [|constructor].
  split; [repeat constructor; easy | constructor].
Qed.

(** C10. A list returned by [path_exists] on a graph built through the
    class is a path along stored edges: it begins with [start'], names no
    node twice, each of its names is followed by the end of a stored edge
    that starts there, and a stored edge leads from its last name to
    [end']. *)
Theorem path_exists_sound self start' end' p
    (Hwf : wf self) (Hp : path_exists self start' end' = Some p) :
  hd_error p = Some start' /\
  NoDup p /\
  (forall i a b,
      nth_error p i = Some a -> nth_error p (S i) = Some b ->
      stored_edge self a b) /\
  (exists l a, p = l ++ [a] /\ stored_edge self a end').
Proof.
  destruct (path_exists_found _ _ _ Hp) as (c0 & rest & -> & Hnd & Hc & Hb).
  destruct (chain_rev Hc) as [[l Hl] Hlinked].
  repeat split.
  - now rewrite Hl.
  - now apply NoDup_rev.
  - apply linked_nth. eapply linked_impl; [|exact Hlinked].
    intros a b. now apply bucket_edge_stored.
  - exists (rev rest), c0. split; [reflexivity|].
    now apply bucket_edge_stored.
Qed.

(** Nothing is found from a name whose bucket is empty or missing: the
    start itself is not compared with [end']. *)
Lemma path_exists_no_outgoing self a end' :
  Dict.get a (edges self) [] = [] -> path_exists self a end' = None.
Proof.
  intros Hb. pose proof (@path_exists_runs _ _ attr self a end') as Hrun.
  assert (H2 : while_queue 2 self end' [[a]] = Done None)
    by (simpl; now rewrite Hb).
  apply (@while_queue_more_fuel _ _ attr self end' 2 _ _ (path_fuel self))
    in H2.
  - congruence.
  - unfold path_fuel.
    pose proof (tree_size_pos (max_bucket self)
                  (List.length (get_all_edges self))). lia.
Qed.
End PathSound.

(** ** show_subgraphs *)

Section Subgraphs.
Context {name_t : Type} `{EqDec name_t} {attr : Type}.
Local Abbreviation Graph := (Graph name_t attr).
Implicit Types (self : Graph) (g : list name_t) (ans : list (list name_t)).

Lemma scan_groups_found self n ans ans' :
  scan_groups self n ans = Some ans' ->
  Permutation (List.concat ans') (n :: List.concat ans).
Proof.
  revert ans'. induction ans as [|g ans IH]; simpl; intros ans' Hs;
    [discriminate|].
  destruct (scan_group self n g).
  - injection Hs as <-. simpl. rewrite <- app_assoc. simpl.
    symmetry. apply Permutation_middle.
  - destruct (scan_groups self n ans) as [ans''|]; [|discriminate].
    injection Hs as <-. simpl.
    rewrite (IH ans'' eq_refl). symmetry. apply Permutation_middle.
Qed.

Lemma place_members self ans (n1 : Node name_t attr) :
  Permutation (List.concat (place self ans n1)) (name n1 :: List.concat ans).
Proof.
  unfold place. destruct (scan_groups self (name n1) ans) as [ans'|] eqn:Hs.
  - now apply (scan_groups_found self).
  - rewrite concat_app. simpl.
    symmetry. apply Permutation_cons_append.
Qed.

Lemma fold_place_members self (ns : list (Node name_t attr)) :
  forall ans,
    Permutation (List.concat (fold_left (place self) ns ans))
      (List.concat ans ++ map (@name _ _) ns).
Proof.
  induction ns as [|n1 ns IH]; simpl; intros ans.
  - now rewrite app_nil_r.
  - rewrite IH, place_members. simpl. apply Permutation_middle.
Qed.

Lemma show_subgraphs_members self :
  Permutation (List.concat (show_subgraphs self))
    (map (@name _ _) (get_all_nodes self)).
Proof. unfold show_subgraphs. now rewrite fold_place_members. Qed.

Lemma wf_node_names self :
  wf self -> map (@name _ _) (get_all_nodes self) = Dict.keys (nodes self).
Proof.
  intros Hwf. unfold get_all_nodes, Dict.values, Dict.keys.
  rewrite map_map. apply map_ext_in. intros [k n] Hin. simpl.
  now apply (wf_nodes_named Hwf).
Qed.

Lemma NoDup_app_disjoint (l1 l2 : list name_t) :
  NoDup (l1 ++ l2) -> forall a, In a l1 -> ~ In a l2.
Proof.
  induction l1 as [|x l1 IH]; simpl; intros Hnd a Ha; [destruct Ha|].
  inversion Hnd as [|? ? Hx Hnd']; subst.
  destruct Ha as [<-|Ha]; [|now apply IH].
  intros Hin. apply Hx. apply in_app_iff. now right.
Qed.

Lemma NoDup_concat_one_group (k : name_t) ans :
  NoDup (List.concat ans) ->
  forall i j g1 g2,
    nth_error ans i = Some g1 -> nth_error ans j = Some g2 ->
    In k g1 -> In k g2 -> i = j.
Proof.
  induction ans as [|g ans IH]; intros Hnd i j g1 g2 Hi Hj H1 H2.
  - destruct i; discriminate.
  - simpl in Hnd. pose proof (NoDup_app_disjoint _ _ Hnd) as Hdisj.
    pose proof (NoDup_app_remove_l _ _ Hnd) as Hrest.
    assert (Hlater : forall m g', nth_error ans m = Some g' -> In k g' ->
                                  In k (List.concat ans)).
    { intros m g' Hm Hk. apply in_concat. exists g'.
      split; [now apply nth_error_In with m | assumption]. }
    destruct i as [|i], j as [|j]; simpl in Hi, Hj.
    + reflexivity.
    + injection Hi as <-. exfalso. apply (Hdisj k H1). now apply (Hlater j g2).
    + injection Hj as <-. exfalso. apply (Hdisj k H2). now apply (Hlater i g1).
    + f_equal. now apply (IH Hrest i j g1 g2).
Qed.

(** C3. The groups of [show_subgraphs] hold every stored node name exactly
    once: put end to end they are a rearrangement of the keys of [nodes],
    a name is a key exactly when some group has it, and no name is in two
    groups or twice in one. *)
Theorem show_subgraphs_partition self (Hwf : wf self) :
  let groups := show_subgraphs self in
  Permutation (List.concat groups) (Dict.keys (nodes self)) /\
  (forall k, In k (Dict.keys (nodes self)) <->
             exists g, In g groups /\ In k g) /\
  NoDup (List.concat groups) /\
  (forall k i j g1 g2,
      nth_error groups i = Some g1 -> nth_error groups j = Some g2 ->
      In k g1 -> In k g2 -> i = j).
Proof.
  intros groups.
  assert (Hperm : Permutation (List.concat groups) (Dict.keys (nodes self))).
  { subst groups. rewrite <- (wf_node_names Hwf).
    apply show_subgraphs_members. }
  assert (Hnd : NoDup (List.concat groups)).
  { apply (Permutation_NoDup (Permutation_sym Hperm)).
    apply (wf_nodes_nodup Hwf). }
  repeat split.
  - exact Hperm.
  - intros Hk. apply (Permutation_in _ (Permutation_sym Hperm)) in Hk.
    apply in_concat in Hk. destruct Hk as (g & Hg & Hk). eauto.
  - intros (g & Hg & Hk). apply (Permutation_in _ Hperm).
    apply in_concat. eauto.
  - exact Hnd.
  - intros k. now apply NoDup_concat_one_group.
Qed.
End Subgraphs.

(** ** The fixtures, evaluated *)

Section FixtureChecks.
Import Fixtures.

Local Ltac in_list :=
  vm_compute; repeat (first [left; reflexivity | right]).
Local Ltac not_in_list := vm_compute; intuition discriminate.

Lemma wf_G1 : wf G1.
Proof. apply wf_Graph_init. Qed.

Lemma wf_G3 : wf G3.
Proof. apply wf_Graph_init. Qed.

(** The assertions of graph.py on [G1] and [G2], as truth values. *)
Example G1_paths :
  map (fun '(a, b) => truthy (path_exists G1 a b))
    [(0, 1); (0, 2); (0, 3); (1, 2); (1, 3); (1, 0); (2, 0); (3, 2);
     (6, 4); (4, 5); (4, 6); (5, 6); (0, 6); (0, 4)]
  = [true; true; true; true; true; true; true; true; true; true;
     false; false; false; false].
Proof. vm_compute. reflexivity. Qed.

Example G2_paths :
  map (fun '(a, b) => truthy (path_exists G2 a b))
    [(9, 1); (5, 1); (2, 9); (5, 4); (9, 6); (4, 0); (7, 3); (7, 8)]
  = [true; true; false; false; false; true; true; false].
Proof. vm_compute. reflexivity. Qed.

Example G1_groups : show_subgraphs G1 = [[0; 1; 2; 3]; [4; 5; 6]].
Proof. vm_compute. reflexivity. Qed.

Example G2_groups :
  show_subgraphs G2 = [[0; 4; 6]; [1; 2; 5; 9]; [3; 7]; [8]].
Proof. vm_compute. reflexivity. Qed.

Lemma G3_groups : show_subgraphs G3 = [[0; 2]; [1]].
Proof. vm_compute. reflexivity. Qed.

Lemma G3_groups_split : ~ same_group (show_subgraphs G3) 1 2.
Proof.
  rewrite G3_groups. intros (g & Hg & H1 & H2).
  destruct Hg as [<-|[<-|[]]]; simpl in H1, H2; intuition discriminate.
Qed.

(** C1. On the fixture [G1], [path_exists(0, 3)] returns [[0, 1, 2]]: the
    list stops at the node before the end, [3] is not in it. *)
Theorem G1_path_0_3_stops_before_end :
  path_exists G1 0 3 = Some [0; 1; 2] /\ ~ In 3 [0; 1; 2].
Proof. split; [vm_compute; reflexivity | not_in_list]. Qed.

(** C2. On [G3] (nodes 0, 1, 2 and edges 0->2, 1->2) the nodes 1 and 2 are
    joined by an edge, so connected in the undirected graph, and
    [show_subgraphs] returns [[0, 2], [1]], which has them in two
    groups. *)
Theorem G3_groups_not_components :
  weakly_connected G3 1 2 /\
  show_subgraphs G3 = [[0; 2]; [1]] /\
  ~ same_group (show_subgraphs G3) 1 2.
Proof.
  split; [|split; [apply G3_groups | apply G3_groups_split]].
  apply rst_step. exists (edge 1 2). split; [in_list|]. split; reflexivity.
Qed.

(** C4. On [G3] the nodes 1 and 2 are stored and [path_exists(1, 2)]
    returns a list, yet [show_subgraphs] has them in two groups. *)
Theorem G3_path_without_group :
  In 1 (Dict.keys (nodes G3)) /\ In 2 (Dict.keys (nodes G3)) /\
  path_exists G3 1 2 = Some [1] /\
  truthy (path_exists G3 1 2) = true /\
  ~ same_group (show_subgraphs G3) 1 2.
Proof.
  split; [in_list|]. split; [in_list|]. split; [vm_compute; reflexivity|].
  split; [vm_compute; reflexivity | apply G3_groups_split].
Qed.

Lemma rejected_mutation_is_noop_witness :
  In 3 (Dict.keys (nodes G1)) /\
  ~ In 7 (Dict.keys (nodes G1)) /\
  add_node (node 3) false G1 = (G1, [IgnoringNodeInsert 3]) /\
  fst (add_edge (edge 0 7) G1) = G1 /\
  fst (add_node (node 9) false (fst (add_node (node 9) false G1))) =
    fst (add_node (node 9) false G1).
Proof.
  destruct (rejected_mutation_is_noop G1) as (Hn & He & Hsame).
  split; [in_list|]. split; [not_in_list|]. split; [|split].
  - apply (Hn (node 3)). in_list.
  - apply (He (edge 0 7)). right. not_in_list.
  - apply (Hsame (node 9) (node 9) false). reflexivity.
Defined.

Lemma edges_closed_invariant_witness :
  edges_closed G1 /\
  edges_closed (fst (add_edge (edge 5 6) G1)) /\
  edges_closed (fst (add_node (node 7) true G1)).
Proof.
  destruct (@edges_closed_invariant Z _ unit) as (Hinit & Hnode & Hedge).
  assert (H1 : edges_closed G1) by apply Hinit.
  split; [exact H1|]. split.
  - apply Hedge. exact H1.
  - apply Hnode. exact H1.
Defined.

Lemma add_node_overwrite_witness :
  In 3 (Dict.keys (nodes G1)) /\
  Dict.get 3 (nodes (fst (add_node artist3 true G1))) (node 0) = artist3 /\
  num_nodes (fst (add_node artist3 true G1)) = 8 /\
  List.length (nodes (fst (add_node artist3 true G1))) = 7%nat /\
  Z.of_nat (List.length (nodes (fst (add_node artist3 true G1)))) <
    num_nodes (fst (add_node artist3 true G1)).
Proof.
  assert (Hin : In (name artist3) (Dict.keys (nodes G1))) by in_list.
  destruct (@add_node_overwrite Z _ unit G1 artist3 Hin)
    as (Hget & _ & Hnum & _ & Hlen & _ & _ & Hgap).
  split; [exact Hin|]. split; [|split; [|split]].
  - apply Hget.
  - rewrite Hnum. reflexivity.
  - rewrite Hlen. reflexivity.
  - apply Hgap. vm_compute. discriminate.
Defined.

Lemma show_subgraphs_partition_witness :
  wf G1 /\
  Permutation (List.concat (show_subgraphs G1)) (Dict.keys (nodes G1)) /\
  NoDup (List.concat (show_subgraphs G1)).
Proof.
  split; [apply wf_G1|].
  destruct (show_subgraphs_partition wf_G1) as (Hperm & _ & Hnd & _).
  split; assumption.
Defined.

Lemma path_exists_sound_witness :
  wf G1 /\ path_exists G1 0 3 = Some [0; 1; 2] /\
  hd_error [0; 1; 2] = Some 0 /\ NoDup [0; 1; 2] /\
  (exists l a, [0; 1; 2] = l ++ [a] /\ stored_edge G1 a 3).
Proof.
  assert (Hp : path_exists G1 0 3 = Some [0; 1; 2])
    by (vm_compute; reflexivity).
  destruct (path_exists_sound 0 3 wf_G1 Hp) as (Hhd & Hnd & _ & Hlast).
  split; [apply wf_G1|]. split; [exact Hp|]. auto.
Defined.
End FixtureChecks.


(** * Further properties *)

(** ** Dictionaries: fresh keys, unique keys, buckets *)

Module DictMore.
Section DictMore.
Context {K V : Type} `{EqDec K}.
Implicit Types (d : Dict.dict K V) (k : K) (v : V).

Lemma update_new d k v :
  ~ In k (Dict.keys d) -> Dict.update k v d = d ++ [(k, v)].
Proof.
  induction d as [|[k' v'] d IH]; simpl; intros Hnin; [reflexivity|].
  destruct (eq_dec k k') as [->|Hne]; [tauto|].
  f_equal. apply IH. tauto.
Qed.

Lemma get_missing d k dflt :
  ~ In k (Dict.keys d) -> Dict.get k d dflt = dflt.
Proof.
  induction d as [|[k' v'] d IH]; simpl; intros Hnin; [reflexivity|].
  destruct (eq_dec k k') as [->|Hne]; [tauto|]. apply IH. tauto.
Qed.

Lemma get_unique d k v dflt :
  NoDup (Dict.keys d) -> In (k, v) d -> Dict.get k d dflt = v.
Proof.
  induction d as [|[k' v'] d IH]; simpl; intros Hnd Hin; [destruct Hin|].
  inversion Hnd as [|? ? Hk' Hnd']; subst.
  destruct (eq_dec k k') as [->|Hne].
  - destruct Hin as [Heq|Hin]; [congruence|].
    exfalso. apply Hk'. apply (in_map fst _ _ Hin).
  - destruct Hin as [Heq|Hin]; [congruence|]. now apply IH.
Qed.

Lemma mem_update d k v k' :
  Dict.mem k' (Dict.update k v d) =
    (if eq_dec k' k then true else Dict.mem k' d).
Proof.
  destruct (Dict.mem k' (Dict.update k v d)) eqn:E.
  - apply DictFacts.mem_true, DictFacts.in_keys_update in E.
    destruct (eq_dec k' k); [reflexivity|].
    symmetry. apply DictFacts.mem_true. tauto.
  - apply DictFacts.mem_false in E.
    rewrite DictFacts.in_keys_update in E.
    destruct (eq_dec k' k); [tauto|].
    symmetry. apply DictFacts.mem_false. tauto.
Qed.
End DictMore.

Section Buckets.
Context {K A : Type} `{EqDec K}.
Implicit Types (d : Dict.dict K (list A)) (k : K).

(** Appending to the bucket of [k]: the values of the dictionary, put end
    to end, gain that one element. *)
Lemma concat_values_append d k (x : A) :
  Permutation
    (List.concat (Dict.values (Dict.update k (Dict.get k d [] ++ [x]) d)))
    (x :: List.concat (Dict.values d)).
Proof.
  induction d as [|[k' b] d IH]; simpl.
  - reflexivity.
  - destruct (eq_dec k k') as [->|Hne]; simpl.
    + rewrite <- app_assoc. simpl. symmetry. apply Permutation_middle.
    + rewrite IH. symmetry. apply Permutation_middle.
Qed.
End Buckets.
End DictMore.

(** ** Storage: accepted mutations, counters, the constructor *)

Section MoreStorage.
Context {name_t : Type} `{EqDec name_t} {attr : Type}.
Local Abbreviation Graph := (Graph name_t attr).
Local Abbreviation Node := (Node name_t attr).
Local Abbreviation Edge := (Edge name_t).
Implicit Types (self : Graph) (node : Node) (edge : Edge).

Import DictFacts DictMore.

Lemma add_edge_accepted_eq self edge :
  In (start edge) (Dict.keys (nodes self)) ->
  In (end_ edge) (Dict.keys (nodes self)) ->
  add_edge edge self =
    ({| nodes := nodes self;
        edges := Dict.update (start edge)
                   (Dict.get (start edge) (edges self) [] ++ [edge])
                   (edges self);
        num_nodes := num_nodes self;
        num_edges := num_edges self + 1 |}, []).
Proof.
  intros Hs He. unfold add_edge.
  apply mem_true in Hs, He. now rewrite Hs, He.
Qed.

Lemma add_edge_cases self edge :
  (fst (add_edge edge self) = self /\
   List.length (snd (add_edge edge self)) = 1%nat) \/
  (In (start edge) (Dict.keys (nodes self)) /\
   In (end_ edge) (Dict.keys (nodes self))).
Proof.
  unfold add_edge.
  destruct (Dict.mem (start edge) (nodes self)) eqn:Es; simpl; [|auto].
  destruct (Dict.mem (end_ edge) (nodes self)) eqn:Ee; simpl; [|auto].
  apply mem_true in Es, Ee. auto.
Qed.

Lemma add_node_cases self node allow_update :
  (add_node node allow_update self = (self, [IgnoringNodeInsert (name node)]) /\
   In (name node) (Dict.keys (nodes self)) /\ allow_update = false) \/
  (~ In (name node) (Dict.keys (nodes self)) \/ allow_update = true).
Proof.
  unfold add_node.
  destruct (Dict.mem (name node) (nodes self)) eqn:Em; simpl.
  - destruct allow_update; simpl; [auto|].
    apply mem_true in Em. auto.
  - apply mem_false in Em. auto.
Qed.

Lemma add_node_fresh_spec self node allow_update
    (Hnew : ~ In (name node) (Dict.keys (nodes self))) :
  let self' := fst (add_node node allow_update self) in
  snd (add_node node allow_update self) = [] /\
  nodes self' = nodes self ++ [(name node, node)] /\
  get_all_nodes self' = get_all_nodes self ++ [node] /\
  (forall dflt, Dict.get (name node) (nodes self') dflt = node) /\
  (forall k dflt, k <> name node ->
      Dict.get k (nodes self') dflt = Dict.get k (nodes self) dflt) /\
  num_nodes self' = num_nodes self + 1 /\
  edges self' = edges self /\
  num_edges self' = num_edges self.
Proof.
  intros self'. subst self'.
  rewrite add_node_accepted by now left. simpl.
  rewrite update_new by assumption.
  repeat split.
  - unfold get_all_nodes, Dict.values. simpl. now rewrite map_app.
  - intros dflt.
    rewrite <- (@update_new _ _ _ (nodes self) (name node) node Hnew).
    apply get_update_eq.
  - intros k dflt Hne.
    rewrite <- (@update_new _ _ _ (nodes self) (name node) node Hnew).
    now apply get_update_ne.
Qed.

(** X1. [add_node] of a name that is not a key yet, with or without the
    update flag: the node goes to the end of [nodes] under its name, is
    what a lookup of that name returns, the other names keep their nodes,
    [num_nodes] grows by one, nothing about edges changes and nothing is
    logged. *)
Theorem add_node_fresh self node allow_update
    (Hnew : ~ In (name node) (Dict.keys (nodes self))) :
  let self' := fst (add_node node allow_update self) in
  snd (add_node node allow_update self) = [] /\
  nodes self' = nodes self ++ [(name node, node)] /\
  get_all_nodes self' = get_all_nodes self ++ [node] /\
  (forall dflt, Dict.get (name node) (nodes self') dflt = node) /\
  (forall k dflt, k <> name node ->
      Dict.get k (nodes self') dflt = Dict.get k (nodes self) dflt) /\
  num_nodes self' = num_nodes self + 1 /\
  edges self' = edges self /\
  num_edges self' = num_edges self.
Proof. exact (@add_node_fresh_spec self node allow_update Hnew). Qed.

Lemma add_edge_accepted_spec self edge
    (Hs : In (start edge) (Dict.keys (nodes self)))
    (He : In (end_ edge) (Dict.keys (nodes self))) :
  let self' := fst (add_edge edge self) in
  snd (add_edge edge self) = [] /\
  Dict.get (start edge) (edges self') [] =
    Dict.get (start edge) (edges self) [] ++ [edge] /\
  (forall k, k <> start edge ->
      Dict.get k (edges self') [] = Dict.get k (edges self) []) /\
  Permutation (get_all_edges self') (edge :: get_all_edges self) /\
  num_edges self' = num_edges self + 1 /\
  nodes self' = nodes self /\
  num_nodes self' = num_nodes self.
Proof.
  intros self'. subst self'.
  rewrite (add_edge_accepted_eq _ _ Hs He). simpl.
  repeat split.
  - apply get_update_eq.
  - intros k Hne. now apply get_update_ne.
  - unfold get_all_edges. simpl. apply concat_values_append.
Qed.

(** X2. [add_edge] of an edge whose start and end are both keys of
    [nodes]: the edge goes to the end of the bucket of its start, the
    other buckets are as they were, the stored edges are the old ones and
    this one, [num_edges] grows by one, nothing about nodes changes and
    nothing is logged. *)
Theorem add_edge_accepted self edge
    (Hs : In (start edge) (Dict.keys (nodes self)))
    (He : In (end_ edge) (Dict.keys (nodes self))) :
  let self' := fst (add_edge edge self) in
  snd (add_edge edge self) = [] /\
  Dict.get (start edge) (edges self') [] =
    Dict.get (start edge) (edges self) [] ++ [edge] /\
  (forall k, k <> start edge ->
      Dict.get k (edges self') [] = Dict.get k (edges self) []) /\
  Permutation (get_all_edges self') (edge :: get_all_edges self) /\
  num_edges self' = num_edges self + 1 /\
  nodes self' = nodes self /\
  num_nodes self' = num_nodes self.
Proof. exact (@add_edge_accepted_spec self edge Hs He). Qed.

Lemma add_node_counters self node allow_update :
  counters_bound self -> counters_bound (fst (add_node node allow_update self)).
Proof.
  intros [He Hn]. unfold counters_bound.
  destruct (add_node_cases self node allow_update) as [(-> & _)|Hacc];
    [now split|].
  rewrite (add_node_accepted _ _ Hacc). unfold get_all_edges. simpl.
  split; [exact He|].
  destruct (in_dec eq_dec (name node) (Dict.keys (nodes self))) as [Hin|Hnin].
  - rewrite length_update_old by assumption. lia.
  - rewrite update_new, length_app by assumption. simpl. lia.
Qed.

Lemma add_edge_edge_count self edge :
  num_edges self = Z.of_nat (List.length (get_all_edges self)) ->
  num_edges (fst (add_edge edge self)) =
    Z.of_nat (List.length (get_all_edges (fst (add_edge edge self)))).
Proof.
  intros He.
  destruct (add_edge_cases self edge) as [(-> & _)|[Hs Hd]]; [exact He|].
  destruct (@add_edge_accepted_spec self edge Hs Hd) as (_ & _ & _ & Hperm & Hnum & _).
  rewrite Hnum, (Permutation_length Hperm). simpl List.length. lia.
Qed.

Lemma add_edge_counters self edge :
  counters_bound self -> counters_bound (fst (add_edge edge self)).
Proof.
  intros [He Hn]. split; [now apply add_edge_edge_count|].
  rewrite add_edge_nodes.
  destruct (add_edge_cases self edge) as [(-> & _)|[Hs Hd]]; [exact Hn|].
  now rewrite (add_edge_accepted_eq _ _ Hs Hd).
Qed.

(** X3. [num_edges] is the number of stored edges and [num_nodes] is at
    least the number of stored nodes: so it is when [__init__] returns, and
    [add_node] (with either flag) and [add_edge] keep it so. *)
Theorem counters_bound_invariant :
  (forall (ns : list Node) (es : list Edge),
      counters_bound (fst (Graph_init ns es))) /\
  (forall self node allow_update,
      counters_bound self ->
      counters_bound (fst (add_node node allow_update self))) /\
  (forall self edge,
      counters_bound self -> counters_bound (fst (add_edge edge self))).
Proof.
  split; [|split].
  - apply Graph_init_inv.
    + split; simpl; reflexivity || lia.
    + intros. now apply add_node_counters.
    + intros. now apply add_edge_counters.
  - intros. now apply add_node_counters.
  - intros. now apply add_edge_counters.
Qed.

(** X4. While no node is overwritten the counters are exact: in the graph
    that [__init__] returns, and after any [add_node] without the update
    flag or [add_edge] on a graph where they are, [num_nodes] is the number
    of stored nodes and [num_edges] the number of stored edges. *)
Theorem counters_exact_without_update :
  let exact (self : Graph) :=
    num_nodes self = Z.of_nat (List.length (nodes self)) /\
    num_edges self = Z.of_nat (List.length (get_all_edges self)) in
  (forall (ns : list Node) (es : list Edge), exact (fst (Graph_init ns es))) /\
  (forall self node, exact self -> exact (fst (add_node node false self))) /\
  (forall self edge, exact self -> exact (fst (add_edge edge self))).
Proof.
  intros exact.
  assert (Hnode : forall self node,
             exact self -> exact (fst (add_node node false self))).
  { intros self node [Hn He].
    destruct (add_node_cases self node false) as [(-> & _)|[Hnew|Hf]];
      [now split | | discriminate].
    destruct (@add_node_fresh_spec self node false Hnew)
      as (_ & Hnodes & _ & _ & _ & Hnum & Hedges & Hne).
    split.
    - rewrite Hnum, Hnodes, length_app. simpl. lia.
    - rewrite Hne. unfold get_all_edges. now rewrite Hedges. }
  assert (Hedge : forall self edge,
             exact self -> exact (fst (add_edge edge self))).
  { intros self edge [Hn He]. split; [|now apply add_edge_edge_count].
    rewrite add_edge_nodes.
    destruct (add_edge_cases self edge) as [(-> & _)|[Hs Hd]]; [exact Hn|].
    now rewrite (add_edge_accepted_eq _ _ Hs Hd). }
  split; [|split; assumption].
  apply Graph_init_inv; [split; reflexivity | |]; intros; auto.
Qed.
End MoreStorage.

(** ** The constructor, and the buckets of a built graph *)

Section MoreConstructor.
Context {name_t : Type} `{EqDec name_t} {attr : Type}.
Local Abbreviation Graph := (Graph name_t attr).
Local Abbreviation Node := (Node name_t attr).
Local Abbreviation Edge := (Edge name_t).
Local Abbreviation Warning := (Warning name_t).
Implicit Types (self : Graph) (node : Node) (edge : Edge).

Import DictFacts DictMore.

Lemma for_each_cons_fst {A : Type} (f : A -> Graph -> Graph * list Warning)
    x xs self :
  fst (for_each f (x :: xs) self) = fst (for_each f xs (fst (f x self))).
Proof.
  simpl. destruct (f x self) as [s1 w1]. simpl.
  now destruct (for_each f xs s1).
Qed.

Lemma for_each_cons_snd {A : Type} (f : A -> Graph -> Graph * list Warning)
    x xs self :
  snd (for_each f (x :: xs) self) =
    snd (f x self) ++ snd (for_each f xs (fst (f x self))).
Proof.
  simpl. destruct (f x self) as [s1 w1]. simpl.
  now destruct (for_each f xs s1).
Qed.

Lemma Graph_init_fst (ns : list Node) (es : list Edge) :
  fst (Graph_init ns es) =
    fst (for_each add_edge es
           (fst (for_each (fun n => add_node n false) ns empty_graph))).
Proof.
  unfold Graph_init.
  destruct (for_each (fun n => add_node n false) ns empty_graph) as [s1 w1].
  simpl. now destruct (for_each add_edge es s1).
Qed.

Lemma Graph_init_snd (ns : list Node) (es : list Edge) :
  snd (Graph_init ns es) =
    snd (for_each (fun n => add_node n false) ns (@empty_graph _ attr)) ++
    snd (for_each add_edge es
           (fst (for_each (fun n => add_node n false) ns empty_graph))).
Proof.
  unfold Graph_init.
  destruct (for_each (fun n => add_node n false) ns empty_graph) as [s1 w1].
  simpl. now destruct (for_each add_edge es s1).
Qed.

Lemma add_node_keys_iff self node allow_update k :
  In k (Dict.keys (nodes (fst (add_node node allow_update self)))) <->
  k = name node \/ In k (Dict.keys (nodes self)).
Proof.
  destruct (add_node_cases self node allow_update) as [(-> & Hin & _)|Hacc].
  - simpl. split; [tauto|]. intros [->|]; assumption.
  - rewrite (add_node_accepted _ _ Hacc). simpl. apply in_keys_update.
Qed.

Lemma for_each_add_node_keys (ns : list Node) :
  forall self k,
    In k (Dict.keys (nodes (fst (for_each (fun n => add_node n false) ns self))))
    <-> In k (Dict.keys (nodes self)) \/ In k (map (@name _ _) ns).
Proof.
  induction ns as [|n ns IH]; intros self k.
  - simpl. tauto.
  - rewrite for_each_cons_fst, IH, add_node_keys_iff. simpl.
    split; intros; intuition congruence.
Qed.

Lemma for_each_add_node_get (ns : list Node) :
  forall self k dflt,
    Dict.get k (nodes (fst (for_each (fun n => add_node n false) ns self))) dflt
    = if Dict.mem k (nodes self) then Dict.get k (nodes self) dflt
      else match find (named k) ns with Some n => n | None => dflt end.
Proof.
  induction ns as [|n ns IH]; intros self k dflt.
  - simpl. destruct (Dict.mem k (nodes self)) eqn:Em; [reflexivity|].
    apply get_missing. now apply mem_false.
  - rewrite for_each_cons_fst, IH. simpl find. unfold named at 2.
    destruct (add_node_cases self n false) as [(-> & Hin & _)|[Hnew|Hf]];
      [| |discriminate].
    + simpl. destruct (Dict.mem k (nodes self)) eqn:Em; [reflexivity|].
      apply mem_false in Em.
      destruct (eq_dec (name n) k) as [<-|Hne]; [contradiction|reflexivity].
    + rewrite add_node_accepted by now left. simpl.
      rewrite mem_update.
      destruct (eq_dec k (name n)) as [->|Hne].
      * rewrite get_update_eq. apply mem_false in Hnew. rewrite Hnew.
        destruct (eq_dec (name n) (name n)); congruence.
      * rewrite get_update_ne by assumption.
        destruct (eq_dec (name n) k); [congruence|reflexivity].
Qed.

Lemma for_each_add_node_distinct (ns : list Node) :
  forall self,
    NoDup (Dict.keys (nodes self) ++ map (@name _ _) ns) ->
    nodes (fst (for_each (fun n => add_node n false) ns self)) =
      nodes self ++ map (fun n => (name n, n)) ns.
Proof.
  induction ns as [|n ns IH]; intros self Hnd.
  - simpl. now rewrite app_nil_r.
  - rewrite for_each_cons_fst. simpl in Hnd.
    assert (Hnew : ~ In (name n) (Dict.keys (nodes self))).
    { apply NoDup_remove_2 in Hnd. intros Hin. apply Hnd.
      apply in_app_iff. now left. }
    destruct (@add_node_fresh_spec _ _ _ self n false Hnew)
      as (_ & Hnodes & _).
    rewrite IH; rewrite Hnodes.
    + rewrite <- app_assoc. reflexivity.
    + unfold Dict.keys. rewrite map_app. simpl.
      rewrite <- app_assoc. exact Hnd.
Qed.

Lemma for_each_add_edge_nodes (es : list Edge) self :
  nodes (fst (for_each add_edge es self)) = nodes self.
Proof.
  apply (for_each_inv (fun s => nodes s = nodes self) add_edge);
    [|reflexivity].
  intros e s Hs. now rewrite add_edge_nodes.
Qed.

Lemma for_each_add_edge_get (es : list Edge) :
  forall self k,
    Dict.get k (edges (fst (for_each add_edge es self))) [] =
      Dict.get k (edges self) [] ++
      filter (fun e => starts_at k e &&
                       (Dict.mem (start e) (nodes self) &&
                        Dict.mem (end_ e) (nodes self))) es.
Proof.
  induction es as [|e es IH]; intros self k.
  - simpl. now rewrite app_nil_r.
  - rewrite for_each_cons_fst, IH, add_edge_nodes. simpl filter.
    destruct (add_edge_cases self e) as [(Heq & Hw)|[Hs He]].
    + rewrite Heq.
      assert (Hrej : Dict.mem (start e) (nodes self) &&
                     Dict.mem (end_ e) (nodes self) = false).
      { destruct (Dict.mem (start e) (nodes self)) eqn:Es;
          destruct (Dict.mem (end_ e) (nodes self)) eqn:Ee; try reflexivity.
        apply mem_true in Es, Ee. exfalso.
        rewrite (add_edge_accepted_eq _ _ Es Ee) in Hw. discriminate. }
      rewrite Hrej, andb_false_r. reflexivity.
    + destruct (@add_edge_accepted_spec _ _ _ self e Hs He)
        as (_ & Hsame & Hother & _).
      apply mem_true in Hs, He. rewrite Hs, He, andb_true_r.
      unfold starts_at at 2.
      destruct (eq_dec (start e) k) as [<-|Hne].
      * rewrite Hsame, <- app_assoc. reflexivity.
      * rewrite Hother by congruence. reflexivity.
Qed.

Lemma for_each_add_edge_all (es : list Edge) :
  forall self,
    Permutation (get_all_edges (fst (for_each add_edge es self)))
      (get_all_edges self ++
       filter (fun e => Dict.mem (start e) (nodes self) &&
                        Dict.mem (end_ e) (nodes self)) es).
Proof.
  induction es as [|e es IH]; intros self.
  - simpl. now rewrite app_nil_r.
  - rewrite for_each_cons_fst, IH, add_edge_nodes. simpl filter.
    destruct (add_edge_cases self e) as [(Heq & Hw)|[Hs He]].
    + rewrite Heq.
      assert (Hrej : Dict.mem (start e) (nodes self) &&
                     Dict.mem (end_ e) (nodes self) = false).
      { destruct (Dict.mem (start e) (nodes self)) eqn:Es;
          destruct (Dict.mem (end_ e) (nodes self)) eqn:Ee; try reflexivity.
        apply mem_true in Es, Ee. exfalso.
        rewrite (add_edge_accepted_eq _ _ Es Ee) in Hw. discriminate. }
      rewrite Hrej. reflexivity.
    + destruct (@add_edge_accepted_spec _ _ _ self e Hs He)
        as (_ & _ & _ & Hperm & _).
      apply mem_true in Hs, He. rewrite Hs, He. simpl.
      rewrite Hperm. simpl. apply Permutation_middle.
Qed.

Lemma node_loop_mem (ns : list Node) (x : name_t) :
  Dict.mem x
    (nodes (fst (for_each (fun n => add_node n false) ns
                   (@empty_graph _ attr)))) =
  if in_dec eq_dec x (map (@name _ _) ns) then true else false.
Proof.
  pose proof (for_each_add_node_keys ns (@empty_graph _ attr) x) as Hk.
  simpl in Hk.
  destruct (in_dec eq_dec x (map (@name _ _) ns)) as [Hin|Hnin].
  - apply mem_true. tauto.
  - apply mem_false. tauto.
Qed.

Lemma node_loop_edges (ns : list Node) self :
  edges (fst (for_each (fun n => add_node n false) ns self)) = edges self.
Proof.
  apply (for_each_inv (fun s => edges s = edges self)
           (fun n => add_node n false)); [|reflexivity].
  intros n s Hs. now rewrite add_node_edges.
Qed.

(** X5. The nodes of [Graph(nodes, edges)]: a name is a key exactly when
    some node of the list has it, a lookup returns the first node of the
    list with that name (later ones are ignored) and the default when
    there is none, and when the names of the list are distinct the stored
    nodes are the list, in its order. *)
Theorem Graph_init_nodes (ns : list Node) (es : list Edge) :
  let G := fst (Graph_init ns es) in
  (forall k, In k (Dict.keys (nodes G)) <-> In k (map (@name _ _) ns)) /\
  (forall k dflt,
      Dict.get k (nodes G) dflt =
        match find (named k) ns with Some n => n | None => dflt end) /\
  (NoDup (map (@name _ _) ns) -> get_all_nodes G = ns).
Proof.
  intros G. subst G. rewrite Graph_init_fst, for_each_add_edge_nodes.
  split; [|split].
  - intros k. rewrite for_each_add_node_keys. simpl. tauto.
  - intros k dflt. rewrite for_each_add_node_get. reflexivity.
  - intros Hnd. unfold get_all_nodes.
    rewrite for_each_add_edge_nodes.
    rewrite for_each_add_node_distinct by exact Hnd. simpl.
    unfold Dict.values. rewrite map_map. simpl. apply map_id.
Qed.

(** X6. The edges of [Graph(nodes, edges)]: the bucket of a name holds the
    edges of the list that start there and have both ends among the names
    of the node list, in the order of the list; all other edges are
    dropped, so the stored edges are those with known ends. *)
Theorem Graph_init_edges (ns : list Node) (es : list Edge) :
  let G := fst (Graph_init ns es) in
  (forall k,
      Dict.get k (edges G) [] =
        filter (fun e => starts_at k e && known_ends ns e) es) /\
  Permutation (get_all_edges G) (filter (known_ends ns) es).
Proof.
  intros G. subst G. rewrite Graph_init_fst.
  assert (Hext : forall e : Edge,
             Dict.mem (start e)
               (nodes (fst (for_each (fun n => add_node n false) ns
                              (@empty_graph _ attr)))) &&
             Dict.mem (end_ e)
               (nodes (fst (for_each (fun n => add_node n false) ns
                              (@empty_graph _ attr)))) =
             known_ends ns e).
  { intros e. now rewrite !node_loop_mem. }
  split.
  - intros k. rewrite for_each_add_edge_get, node_loop_edges. simpl.
    apply filter_ext. intros e. now rewrite Hext.
  - rewrite for_each_add_edge_all. unfold get_all_edges at 1.
    rewrite node_loop_edges. simpl.
    erewrite filter_ext; [reflexivity|]. intros e. now rewrite Hext.
Qed.

Lemma for_each_tally {A : Type} (f : A -> Graph -> Graph * list Warning)
    (m : Graph -> Z) :
  (forall x self,
      m (fst (f x self)) + Z.of_nat (List.length (snd (f x self))) =
        m self + 1) ->
  forall xs self,
    m (fst (for_each f xs self)) +
      Z.of_nat (List.length (snd (for_each f xs self))) =
    m self + Z.of_nat (List.length xs).
Proof.
  intros Hf xs. induction xs as [|x xs IH]; intros self.
  - simpl. lia.
  - rewrite for_each_cons_fst, for_each_cons_snd, length_app.
    specialize (IH (fst (f x self))). specialize (Hf x self).
    simpl List.length. lia.
Qed.

(** X7. [Graph(nodes, edges)] accounts for each element of its two lists
    once: a node is counted in [num_nodes] or a warning is logged for it,
    and an edge is counted in [num_edges] or a warning is logged for it. *)
Theorem Graph_init_accounts (ns : list Node) (es : list Edge) :
  num_nodes (fst (Graph_init ns es)) + num_edges (fst (Graph_init ns es)) +
    Z.of_nat (List.length (snd (Graph_init ns es))) =
  Z.of_nat (List.length ns) + Z.of_nat (List.length es).
Proof.
  rewrite Graph_init_fst, Graph_init_snd, length_app.
  set (s1 := fst (for_each (fun n => add_node n false) ns
                    (@empty_graph _ attr))).
  assert (Hn : num_nodes s1 +
               Z.of_nat (List.length
                 (snd (for_each (fun n => add_node n false) ns
                         (@empty_graph _ attr)))) =
               Z.of_nat (List.length ns)).
  { subst s1.
    rewrite (@for_each_tally _ (fun n => add_node n false) (@num_nodes _ _)).
    - reflexivity.
    - intros n self.
      destruct (add_node_cases self n false) as [(-> & _)|Hacc];
        [simpl; lia|].
      rewrite (add_node_accepted _ _ Hacc). simpl. lia. }
  assert (Hne1 : num_edges s1 = 0).
  { subst s1.
    apply (for_each_inv (fun s => num_edges s = 0)
             (fun n => add_node n false)); [|reflexivity].
    intros n s Hs. unfold add_node.
    now destruct (Dict.mem (name n) (nodes s) && negb false). }
  assert (He : num_edges (fst (for_each add_edge es s1)) +
               Z.of_nat (List.length (snd (for_each add_edge es s1))) =
               num_edges s1 + Z.of_nat (List.length es)).
  { apply (@for_each_tally _ add_edge (@num_edges _ _)).
    intros e self.
    destruct (add_edge_cases self e) as [(-> & ->)|[Hs Hd]]; [lia|].
    rewrite (add_edge_accepted_eq _ _ Hs Hd). simpl. lia. }
  assert (Hnn : num_nodes (fst (for_each add_edge es s1)) = num_nodes s1).
  { apply (for_each_inv (fun s => num_nodes s = num_nodes s1) add_edge);
      [|reflexivity].
    intros e s Hs.
    destruct (add_edge_cases s e) as [(-> & _)|[Hs1 Hd1]]; [exact Hs|].
    now rewrite (add_edge_accepted_eq _ _ Hs1 Hd1). }
  lia.
Qed.

Lemma filter_none {A : Type} (f : A -> bool) (l : list A) :
  (forall x, In x l -> f x = false) -> filter f l = [].
Proof.
  induction l as [|x l IH]; simpl; intros Hall; [reflexivity|].
  rewrite (Hall x) by now left. apply IH. intros y Hy. apply Hall. now right.
Qed.

Lemma filter_all {A : Type} (f : A -> bool) (l : list A) :
  (forall x, In x l -> f x = true) -> filter f l = l.
Proof.
  induction l as [|x l IH]; simpl; intros Hall; [reflexivity|].
  rewrite (Hall x) by now left. f_equal. apply IH.
  intros y Hy. apply Hall. now right.
Qed.

Lemma bucket_filter (d : Dict.dict name_t (list Edge)) (k : name_t) :
  NoDup (Dict.keys d) ->
  (forall k' b e, In (k', b) d -> In e b -> start e = k') ->
  Dict.get k d [] = filter (starts_at k) (List.concat (Dict.values d)).
Proof.
  induction d as [|[k' b] d IH]; simpl; intros Hnd Hst; [reflexivity|].
  inversion Hnd as [|? ? Hk' Hnd']; subst.
  rewrite filter_app.
  assert (IHd := IH Hnd' (fun k0 b0 e0 Hin => Hst k0 b0 e0 (or_intror Hin))).
  destruct (eq_dec k k') as [->|Hne].
  - rewrite filter_all, filter_none; [now rewrite app_nil_r | |].
    + intros e He. apply in_concat in He. destruct He as (b' & Hb' & He).
      apply in_map_iff in Hb'. destruct Hb' as ([k0 b0] & <- & Hin).
      simpl in He. unfold starts_at.
      rewrite (Hst k0 b0 e (or_intror Hin) He).
      destruct (eq_dec k0 k') as [->|]; [|reflexivity].
      exfalso. apply Hk'. apply (in_map fst _ _ Hin).
    + intros e He. unfold starts_at.
      rewrite (Hst k' b e (or_introl eq_refl) He).
      destruct (eq_dec k' k'); congruence.
  - rewrite filter_none; [exact IHd|].
    intros e He. unfold starts_at.
    rewrite (Hst k' b e (or_introl eq_refl) He).
    destruct (eq_dec k' k); congruence.
Qed.

(** X8. In a graph built through the class, a bucket is what
    [get_all_edges] returns, restricted to the edges that start at the
    bucket's name, in the same order; a name without a bucket gives the
    empty list. *)
Theorem bucket_is_filter self (k : name_t) (Hwf : wf self) :
  Dict.get k (edges self) [] = filter (starts_at k) (get_all_edges self).
Proof.
  apply bucket_filter; [apply (wf_edges_nodup Hwf)|].
  intros k' b e. apply (wf_edges_start Hwf).
Qed.
End MoreConstructor.

(** ** path_exists decides reachability, breadth first *)

Section Reachability.
Context {name_t : Type} `{EqDec name_t} {attr : Type}.
Local Abbreviation Graph := (Graph name_t attr).
Implicit Types (self : Graph) (curr p : list name_t)
  (queue : list (list name_t)).

Import DictFacts DictMore.

Lemma while_queue_edges_only self1 self2 end' fuel :
  edges self1 = edges self2 ->
  forall queue,
    while_queue fuel self1 end' queue = while_queue fuel self2 end' queue.
Proof.
  intros Heq. induction fuel as [|fuel IH]; intros queue; [reflexivity|].
  simpl. destruct queue as [|[|c0 rest] queue]; try reflexivity.
  rewrite Heq.
  destruct (for_options end' (c0 :: rest)
              (map end_ (Dict.get c0 (edges self2) [])) queue);
    [reflexivity | apply IH].
Qed.

Lemma path_exists_edges_only self1 self2 start' end' :
  edges self1 = edges self2 ->
  path_exists self1 start' end' = path_exists self2 start' end'.
Proof.
  intros Heq. unfold path_exists, path_fuel, max_bucket, get_all_edges.
  rewrite Heq. now rewrite (@while_queue_edges_only self1 self2 end' _ Heq).
Qed.

Lemma for_options_hit end' curr options queue :
  In end' options ->
  for_options end' curr options queue = inl (rev curr).
Proof.
  revert queue. induction options as [|n options IH]; simpl; intros queue Hin;
    [destruct Hin|].
  destruct (eq_dec n end') as [->|Hne]; [reflexivity|].
  destruct Hin as [Heq|Hin]; [congruence|].
  destruct (in_dec eq_dec n curr); now apply IH.
Qed.

Lemma for_options_keeps end' curr options :
  forall queue queue',
    for_options end' curr options queue = inr queue' ->
    (forall p, In p queue -> In p queue') /\
    (forall n, In n options -> ~ In n curr -> In (n :: curr) queue').
Proof.
  induction options as [|n options IH]; simpl; intros queue queue' Hf.
  - injection Hf as <-. split; [auto|]. intros n [].
  - destruct (eq_dec n end'); [discriminate|].
    destruct (in_dec eq_dec n curr) as [Hin|Hnin].
    + destruct (IH _ _ Hf) as [Hold Hnew]. split; [exact Hold|].
      intros m [<-|Hm] Hc; [contradiction | now apply Hnew].
    + destruct (IH _ _ Hf) as [Hold Hnew]. split.
      * intros p Hp. apply Hold. apply in_app_iff. now left.
      * intros m [<-|Hm] Hc; [|now apply Hnew].
        apply Hold. apply in_app_iff. right. now left.
Qed.

Lemma chain_suffix self start' l :
  forall c, chain self start' (l ++ c) -> c <> [] -> chain self start' c.
Proof.
  induction l as [|x l IH]; simpl; intros c Hc Hne; [exact Hc|].
  remember (x :: l ++ c) as lc eqn:E.
  destruct Hc as [|n c0 rest Hc' Hb].
  - injection E as _ E. symmetry in E. apply app_eq_nil in E.
    destruct E. contradiction.
  - injection E as _ E. rewrite E in Hc'. now apply IH.
Qed.

Lemma chain_step_inv self start' n c0 rest :
  chain self start' (n :: c0 :: rest) ->
  bucket_edge self c0 n /\ chain self start' (c0 :: rest).
Proof. intros Hc. inversion Hc; subst. auto. Qed.

Lemma chain_last self start' c :
  chain self start' c -> exists l, c = l ++ [start'].
Proof.
  induction 1 as [|n c0 rest Hc [l Hl] Hb].
  - now exists [].
  - exists (n :: l). simpl. now rewrite Hl.
Qed.

Lemma levelled_head_min m curr queue c :
  levelled m (curr :: queue) -> In c (curr :: queue) ->
  (List.length curr <= List.length c)%nat.
Proof.
  intros (front & back & Heq & Hf & Hb) Hin.
  assert (Hc : List.length c = m \/ List.length c = S m).
  { rewrite Heq in Hin. apply in_app_iff in Hin.
    rewrite Forall_forall in Hf, Hb. destruct Hin; auto. }
  destruct front as [|f front]; simpl in Heq.
  - subst back. rewrite Forall_forall in Hb.
    rewrite (Hb curr (or_introl eq_refl)).
    destruct Hin as [<-|Hin]; [now rewrite (Hb curr (or_introl eq_refl))|].
    rewrite (Hb c (or_intror Hin)). lia.
  - injection Heq as <- _. apply Forall_inv in Hf. lia.
Qed.

Lemma levelled_step m curr queue news :
  levelled m (curr :: queue) ->
  Forall (fun p => List.length p = S (List.length curr)) news ->
  exists m', levelled m' (queue ++ news).
Proof.
  intros (front & back & Heq & Hf & Hb) Hnews.
  destruct front as [|f front]; simpl in Heq.
  - subst back. exists (S m), queue, news. split; [reflexivity|].
    split; [now apply Forall_inv_tail in Hb|].
    apply Forall_inv in Hb. eapply Forall_impl; [|exact Hnews].
    intros p Hp. simpl in Hp. lia.
  - injection Heq as <- ->. exists m, front, (back ++ news).
    split; [now rewrite app_assoc|].
    split; [now apply Forall_inv_tail in Hf|].
    apply Forall_app. split; [exact Hb|].
    apply Forall_inv in Hf. eapply Forall_impl; [|exact Hnews].
    intros p Hp. simpl in Hp. lia.
Qed.

Lemma exists_last_or_nil {A : Type} (l : list A) :
  l = [] \/ exists l' a, l = l' ++ [a].
Proof.
  destruct l as [|x l]; [now left|]. right.
  destruct (@exists_last A (x :: l)) as (l' & a & Hl); [discriminate|].
  eauto.
Qed.

(** While a beginning of a duplicate-free path to a predecessor of [end']
    is in a levelled queue, the loop can only end with a path, and one that
    is not longer. *)
Lemma while_queue_finds self start' end' t0 trest fuel :
  chain self start' (t0 :: trest) -> NoDup (t0 :: trest) ->
  bucket_edge self t0 end' ->
  forall queue m r,
    levelled m queue ->
    (exists l c, t0 :: trest = l ++ c /\ c <> [] /\ In c queue) ->
    while_queue fuel self end' queue = Done r ->
    exists p, r = Some p /\ (List.length p <= List.length (t0 :: trest))%nat.
Proof.
  intros Hchain Hnd Hedge.
  induction fuel as [|fuel IH]; intros queue m r Hlev (l & c & Ht & Hc & Hin) Hrun;
    [discriminate|].
  simpl in Hrun. destruct queue as [|[|c0 rest] queue]; try discriminate.
  - destruct Hin.
  - destruct (for_options end' (c0 :: rest)
                (map end_ (Dict.get c0 (edges self) [])) queue)
      as [p|queue'] eqn:Hf.
    + injection Hrun as <-. exists p. split; [reflexivity|].
      destruct (for_options_returns _ _ _ _ Hf) as [-> _].
      rewrite length_rev.
      pose proof (levelled_head_min Hlev Hin) as Hmin.
      rewrite Ht, length_app. lia.
    + destruct (for_options_falls_through _ _ _ _ Hf)
        as (news & Hq & _ & Hall).
      destruct (for_options_keeps _ _ _ _ Hf) as [Hold Hnew].
      assert (Hlev' : exists m', levelled m' queue').
      { rewrite Hq. apply (levelled_step Hlev).
        eapply Forall_impl; [|exact Hall].
        intros p (n & -> & _). reflexivity. }
      destruct Hlev' as [m' Hlev'].
      apply (IH queue' m' r Hlev'); [|exact Hrun].
      destruct Hin as [<-|Hin]; [|exists l, c; auto].
      destruct (exists_last_or_nil l) as [->|(l' & n & ->)].
      * simpl in Ht. injection Ht as -> ->.
        rewrite (@for_options_hit end' (c0 :: rest) _ queue Hedge) in Hf.
        discriminate.
      * rewrite <- app_assoc in Ht. simpl in Ht.
        assert (Hnc : chain self start' (n :: c0 :: rest)).
        { apply (@chain_suffix self start' l'); [|discriminate].
          now rewrite <- Ht. }
        destruct (chain_step_inv Hnc) as [Hb _].
        assert (Hnin : ~ In n (c0 :: rest)).
        { rewrite Ht in Hnd. apply NoDup_app_remove_l in Hnd.
          now inversion Hnd. }
        exists l', (n :: c0 :: rest).
        split; [exact Ht|]. split; [discriminate|].
        apply Hnew; [exact Hb | exact Hnin].
Qed.

Lemma path_exists_complete self start' end' t0 trest :
  chain self start' (t0 :: trest) -> NoDup (t0 :: trest) ->
  bucket_edge self t0 end' ->
  exists p,
    path_exists self start' end' = Some p /\
    (List.length p <= List.length (t0 :: trest))%nat.
Proof.
  intros Hchain Hnd Hedge.
  apply (@while_queue_finds self start' end' t0 trest (path_fuel self)
           Hchain Hnd Hedge [[start']] 1%nat).
  - exists [[start']], []. repeat split; repeat constructor.
  - destruct (chain_last Hchain) as [l Hl].
    exists l, [start']. split; [exact Hl|]. split; [discriminate | now left].
  - apply path_exists_runs.
Qed.

(** A path that visits a name twice can be cut short. *)
Lemma chain_simple self start' c :
  chain self start' c ->
  exists c0 rest,
    hd_error c = Some c0 /\
    chain self start' (c0 :: rest) /\ NoDup (c0 :: rest) /\
    (List.length (c0 :: rest) <= List.length c)%nat.
Proof.
  induction 1 as [|n c0 rest Hc (c0' & rest' & Hhd & Hc' & Hnd & Hlen) Hb].
  - exists start', []. repeat split; repeat constructor; easy.
  - simpl in Hhd. injection Hhd as <-.
    destruct (in_dec eq_dec n (c0 :: rest')) as [Hin|Hnin].
    + apply in_split in Hin. destruct Hin as (l1 & l2 & Hsplit).
      exists n, l2. split; [reflexivity|]. split; [|split].
      * apply (@chain_suffix self start' l1); [|discriminate].
        now rewrite <- Hsplit.
      * rewrite Hsplit in Hnd. now apply NoDup_app_remove_l in Hnd.
      * apply (f_equal (@List.length _)) in Hsplit.
        rewrite length_app in Hsplit. simpl in *. lia.
    + exists n, (c0 :: rest'). split; [reflexivity|]. split; [|split].
      * now constructor.
      * now constructor.
      * simpl in *. lia.
Qed.

Lemma chain_reach self start' c :
  chain self start' c ->
  forall e, bucket_edge self (hd start' c) e ->
            clos_trans name_t (bucket_edge self) start' e.
Proof.
  induction 1 as [|n c0 rest Hc IH Hb]; simpl; intros e He.
  - now apply t_step.
  - apply t_trans with n; [|now apply t_step]. now apply IH.
Qed.

Lemma reach_chain self start' end' :
  clos_trans name_t (bucket_edge self) start' end' ->
  exists c0 rest,
    chain self start' (c0 :: rest) /\ bucket_edge self c0 end'.
Proof.
  intros Hr. apply clos_trans_tn1 in Hr.
  induction Hr as [y Hy|y z Hyz Hr (c0 & rest & Hc & Hb)].
  - exists start', []. split; [constructor | exact Hy].
  - exists y, (c0 :: rest). split; [now constructor | exact Hyz].
Qed.

Lemma clos_trans_mono (R R' : name_t -> name_t -> Prop) :
  (forall a b, R a b -> R' a b) ->
  forall a b, clos_trans name_t R a b -> clos_trans name_t R' a b.
Proof.
  intros HR a b Hab. induction Hab as [a b Hab|a b c _ IH1 _ IH2].
  - apply t_step. now apply HR.
  - now apply t_trans with b.
Qed.

Lemma stored_edge_bucket self a b :
  wf self -> stored_edge self a b -> bucket_edge self a b.
Proof.
  intros Hwf (e & Hin & <- & <-). unfold get_all_edges in Hin.
  apply in_concat in Hin. destruct Hin as (bucket & Hb & He).
  apply in_map_iff in Hb. destruct Hb as ([k b0] & <- & Hkb). simpl in He.
  pose proof (wf_edges_start Hwf _ _ _ Hkb He) as Hk.
  unfold bucket_edge.
  rewrite (@get_unique _ _ _ (edges self) (start e) b0 []).
  - now apply in_map.
  - apply (wf_edges_nodup Hwf).
  - now rewrite Hk.
Qed.

Lemma reach_ends self a b :
  wf self -> reachable self a b ->
  In a (Dict.keys (nodes self)) /\ In b (Dict.keys (nodes self)).
Proof.
  intros Hwf Hab. induction Hab as [a b (e & Hin & <- & <-)|a b c _ IH1 _ IH2].
  - unfold get_all_edges in Hin. apply in_concat in Hin.
    destruct Hin as (bucket & Hb & He).
    apply in_map_iff in Hb. destruct Hb as ([k b0] & <- & Hkb).
    apply (wf_closed Hwf _ _ _ Hkb He).
  - tauto.
Qed.

Lemma truthy_found (r : option (list name_t)) c0 rest :
  r = Some (rev (c0 :: rest)) -> truthy r = true.
Proof.
  intros ->. simpl. destruct (rev rest ++ [c0]) eqn:E; [|reflexivity].
  apply app_eq_nil in E. destruct E. discriminate.
Qed.

Lemma path_exists_reach self start' end' :
  wf self ->
  (truthy (path_exists self start' end') = true <->
   reachable self start' end').
Proof.
  intros Hwf. split.
  - intros Ht. destruct (path_exists self start' end') as [p|] eqn:Hp;
      [|discriminate].
    destruct (path_exists_found _ _ _ Hp) as (c0 & rest & _ & _ & Hc & Hb).
    apply (@clos_trans_mono (bucket_edge self) (stored_edge self)).
    + intros a b. now apply bucket_edge_stored.
    + apply (chain_reach Hc). exact Hb.
  - intros Hr.
    apply (@clos_trans_mono (stored_edge self) (bucket_edge self)) in Hr.
    2:{ intros a b. now apply stored_edge_bucket. }
    destruct (reach_chain Hr) as (c0 & rest & Hc & Hb).
    destruct (chain_simple Hc) as (c0' & rest' & Hhd & Hc' & Hnd & _).
    simpl in Hhd. injection Hhd as <-.
    destruct (@path_exists_complete self start' end' c0 rest' Hc' Hnd Hb)
      as (p & Hp & _).
    destruct (path_exists_found _ _ _ Hp) as (d0 & drest & Hrev & _).
    apply (@truthy_found _ d0 drest). now rewrite Hp, Hrev.
Qed.

Lemma linked_snoc_inv (R : name_t -> name_t -> Prop) p a n :
  linked R ((p ++ [a]) ++ [n]) -> linked R (p ++ [a]) /\ R a n.
Proof.
  induction p as [|x p IH]; simpl; [tauto|].
  destruct p as [|y p]; simpl in *; [tauto|].
  intros [Hxy Hl]. destruct (IH Hl). tauto.
Qed.

Lemma linked_chain self start' (c : list name_t) :
  c <> [] -> hd_error (rev c) = Some start' ->
  linked (bucket_edge self) (rev c) -> chain self start' c.
Proof.
  induction c as [|n c IH]; intros Hne Hhd Hl; [contradiction|].
  destruct c as [|c0 rest].
  - simpl in Hhd. injection Hhd as ->. constructor.
  - change (rev (n :: c0 :: rest)) with ((rev rest ++ [c0]) ++ [n]) in Hhd, Hl.
    apply linked_snoc_inv in Hl. destruct Hl as [Hl Hb].
    constructor; [|exact Hb].
    apply IH; [discriminate | | exact Hl].
    simpl. destruct (rev rest ++ [c0]) eqn:E; [|exact Hhd].
    apply app_eq_nil in E. destruct E. discriminate.
Qed.

(** X9. [path_exists] decides reachability: on a graph built through the
    class it returns a list (a true value) exactly when [end'] can be
    reached from [start'] along one or more stored edges, and [False]
    exactly when it cannot. *)
Theorem path_exists_decides_reachability self start' end' (Hwf : wf self) :
  (truthy (path_exists self start' end') = true <->
   reachable self start' end') /\
  (path_exists self start' end' = None <-> ~ reachable self start' end').
Proof.
  pose proof (path_exists_reach start' end' Hwf) as Hiff.
  split; [exact Hiff|]. split.
  - intros Hnone Hr. apply Hiff in Hr. rewrite Hnone in Hr. discriminate.
  - intros Hnr. destruct (path_exists self start' end') as [p|] eqn:Hp;
      [|reflexivity].
    exfalso. apply Hnr. apply Hiff.
    destruct (path_exists_found _ _ _ Hp) as (c0 & rest & Hrev & _).
    apply (@truthy_found _ c0 rest). now rewrite Hrev.
Qed.

(** X10. The search is breadth first: the list that [path_exists] returns
    is not longer than any list of names that begins with [start'], follows
    stored edges from each name to the next, and ends with a name that has
    a stored edge to [end']. *)
Theorem path_exists_shortest self start' end' p
    (Hwf : wf self) (Hp : path_exists self start' end' = Some p) :
  forall q : list name_t,
    hd_error q = Some start' ->
    linked (stored_edge self) q ->
    (exists l a, q = l ++ [a] /\ stored_edge self a end') ->
    (List.length p <= List.length q)%nat.
Proof.
  intros q Hhd Hl (l & a & Hq & Ha).
  assert (Hc : chain self start' (rev q)).
  { apply linked_chain.
    - rewrite Hq, rev_app_distr. discriminate.
    - now rewrite rev_involutive.
    - rewrite rev_involutive. eapply linked_impl; [|exact Hl].
      intros x y. now apply stored_edge_bucket. }
  destruct (chain_simple Hc) as (c0 & rest & Hhd' & Hc' & Hnd & Hlen).
  assert (Hc0 : c0 = a).
  { rewrite Hq, rev_app_distr in Hhd'. simpl in Hhd'. congruence. }
  subst c0.
  destruct (@path_exists_complete self start' end' a rest Hc' Hnd
              (stored_edge_bucket Hwf Ha))
    as (p' & Hp' & Hlen').
  rewrite length_rev in Hlen. rewrite Hp in Hp'. injection Hp' as <-. lia.
Qed.

(** X11. A name that is not stored is never an endpoint of a path: on a
    graph built through the class, [path_exists] with a start or an end
    that is not a key of [nodes] returns [False] (it raises no
    [KeyError]). *)
Theorem path_exists_unknown_name self start' end' (Hwf : wf self)
    (Hunknown : ~ In start' (Dict.keys (nodes self)) \/
                ~ In end' (Dict.keys (nodes self))) :
  path_exists self start' end' = None.
Proof.
  destruct (path_exists self start' end') as [p|] eqn:Hp; [|reflexivity].
  exfalso.
  destruct (path_exists_found _ _ _ Hp) as (c0 & rest & Hrev & _).
  assert (Ht : truthy (path_exists self start' end') = true)
    by (apply (@truthy_found _ c0 rest); now rewrite Hp, Hrev).
  apply (path_exists_reach start' end' Hwf) in Ht.
  destruct (reach_ends Hwf Ht). tauto.
Qed.

(** X12. [path_exists] reads the edges only: [add_node], accepted or
    rejected, with either flag, changes no answer of [path_exists]. *)
Theorem add_node_keeps_paths self (node : Node name_t attr) allow_update
    start' end' :
  path_exists (fst (add_node node allow_update self)) start' end' =
  path_exists self start' end'.
Proof. apply path_exists_edges_only. apply add_node_edges. Qed.

Lemma add_edge_keeps_edges self (edge : Edge name_t) a b :
  stored_edge self a b -> stored_edge (fst (add_edge edge self)) a b.
Proof.
  intros (e & Hin & Hs & He). exists e. split; [|auto].
  destruct (add_edge_cases self edge) as [(-> & _)|[Hs' Hd']]; [exact Hin|].
  destruct (@add_edge_accepted_spec _ _ _ self edge Hs' Hd')
    as (_ & _ & _ & Hperm & _).
  apply (Permutation_in _ (Permutation_sym Hperm)). now right.
Qed.

(** X13. Adding an edge only adds paths: on a graph built through the
    class, every pair for which [path_exists] returned a list still gets
    one after [add_edge], and after an accepted [add_edge] there is one
    from the start of the new edge to its end. *)
Theorem add_edge_adds_paths self (edge : Edge name_t) (Hwf : wf self) :
  (forall start' end',
      truthy (path_exists self start' end') = true ->
      truthy (path_exists (fst (add_edge edge self)) start' end') = true) /\
  (In (start edge) (Dict.keys (nodes self)) ->
   In (end_ edge) (Dict.keys (nodes self)) ->
   truthy (path_exists (fst (add_edge edge self)) (start edge) (end_ edge))
     = true).
Proof.
  pose proof (wf_add_edge edge Hwf) as Hwf'. split.
  - intros start' end' Ht.
    apply (path_exists_reach start' end' Hwf').
    apply (path_exists_reach start' end' Hwf) in Ht.
    apply (@clos_trans_mono (stored_edge self)
             (stored_edge (fst (add_edge edge self)))); [|exact Ht].
    intros a b. apply add_edge_keeps_edges.
  - intros Hs Hd. apply (path_exists_reach _ _ Hwf'). apply t_step.
    exists edge. split; [|auto].
    destruct (@add_edge_accepted_spec _ _ _ self edge Hs Hd)
      as (_ & _ & _ & Hperm & _).
    apply (Permutation_in _ (Permutation_sym Hperm)). now left.
Qed.
End Reachability.

(** ** show_subgraphs: what the groups do guarantee *)

Section MoreSubgraphs.
Context {name_t : Type} `{EqDec name_t} {attr : Type}.
Local Abbreviation Graph := (Graph name_t attr).
Local Abbreviation Node := (Node name_t attr).
Implicit Types (self : Graph) (g : list name_t) (ans : list (list name_t)).

Lemma scan_group_true self n g :
  scan_group self n g = true ->
  exists n2, In n2 g /\
    (truthy (path_exists self n n2) = true \/
     truthy (path_exists self n2 n) = true).
Proof.
  induction g as [|n2 g IH]; simpl; [discriminate|].
  destruct (truthy (path_exists self n n2)) eqn:E1; [eauto|].
  destruct (truthy (path_exists self n2 n)) eqn:E2; [eauto|].
  intros Hs. destruct (IH Hs) as (m & Hm & Hor). eauto.
Qed.

Lemma scan_group_false self n g :
  scan_group self n g = false ->
  forall n2, In n2 g ->
    truthy (path_exists self n n2) = false /\
    truthy (path_exists self n2 n) = false.
Proof.
  induction g as [|m g IH]; simpl; intros Hs n2 Hin; [destruct Hin|].
  destruct (truthy (path_exists self n m)) eqn:E1; [discriminate|].
  destruct (truthy (path_exists self m n)) eqn:E2; [discriminate|].
  destruct Hin as [<-|Hin]; [auto | now apply IH].
Qed.

Lemma scan_groups_some self n ans ans' :
  scan_groups self n ans = Some ans' ->
  exists l1 g l2,
    ans = l1 ++ g :: l2 /\ ans' = l1 ++ (g ++ [n]) :: l2 /\
    scan_group self n g = true.
Proof.
  revert ans'. induction ans as [|g ans IH]; simpl; intros ans' Hs;
    [discriminate|].
  destruct (scan_group self n g) eqn:Eg.
  - injection Hs as <-. exists [], g, ans. auto.
  - destruct (scan_groups self n ans) as [ans''|]; [|discriminate].
    injection Hs as <-.
    destruct (IH ans'' eq_refl) as (l1 & g' & l2 & -> & -> & Hg).
    exists (g :: l1), g', l2. auto.
Qed.

Lemma scan_groups_none self n ans :
  scan_groups self n ans = None ->
  forall g, In g ans -> scan_group self n g = false.
Proof.
  induction ans as [|h ans IH]; simpl; intros Hs g Hin; [destruct Hin|].
  destruct (scan_group self n h) eqn:Eh; [discriminate|].
  destruct (scan_groups self n ans); [discriminate|].
  destruct Hin as [<-|Hin]; [exact Eh | now apply IH].
Qed.

Lemma reach_weak self a b : reachable self a b -> weakly_connected self a b.
Proof.
  induction 1 as [a b Hab|a b c _ IH1 _ IH2].
  - now apply rst_step.
  - now apply rst_trans with b.
Qed.

Lemma scan_group_weak self n g :
  wf self -> scan_group self n g = true ->
  exists n2, In n2 g /\ weakly_connected self n n2.
Proof.
  intros Hwf Hs. destruct (scan_group_true _ _ _ Hs) as (n2 & Hin & [Ht|Ht]);
    exists n2; (split; [exact Hin|]);
    apply (path_exists_reach _ _ Hwf) in Ht.
  - now apply reach_weak.
  - apply rst_sym. now apply reach_weak.
Qed.

(** Every group is non-empty and its members are connected. *)
Lemma place_connected self ans (n1 : Node) :
  wf self ->
  Forall (fun g => g <> [] /\
            forall a b, In a g -> In b g -> weakly_connected self a b) ans ->
  Forall (fun g => g <> [] /\
            forall a b, In a g -> In b g -> weakly_connected self a b)
    (place self ans n1).
Proof.
  intros Hwf Hans. unfold place.
  destruct (scan_groups self (name n1) ans) as [ans'|] eqn:Hs.
  - destruct (scan_groups_some _ _ _ Hs) as (l1 & g & l2 & -> & -> & Hg).
    apply Forall_app in Hans. destruct Hans as [H1 H2].
    apply Forall_app. split; [exact H1|].
    constructor; [|now apply Forall_inv_tail in H2].
    apply Forall_inv in H2. destruct H2 as [Hne Hconn].
    split; [destruct g; discriminate|].
    destruct (scan_group_weak _ _ Hwf Hg) as (n2 & Hn2 & Hw).
    assert (Hnew : forall a, In a g -> weakly_connected self (name n1) a).
    { intros a Ha. apply rst_trans with n2; [exact Hw | now apply Hconn]. }
    intros a b Ha Hb. apply in_app_iff in Ha, Hb.
    destruct Ha as [Ha|[<-|[]]], Hb as [Hb|[<-|[]]].
    + now apply Hconn.
    + apply rst_sym. now apply Hnew.
    + now apply Hnew.
    + apply rst_refl.
  - apply Forall_app. split; [exact Hans|].
    constructor; [|constructor]. split; [discriminate|].
    intros a b [<-|[]] [<-|[]]. apply rst_refl.
Qed.

Lemma show_subgraphs_connected self :
  wf self ->
  Forall (fun g => g <> [] /\
            forall a b, In a g -> In b g -> weakly_connected self a b)
    (show_subgraphs self).
Proof.
  intros Hwf. unfold show_subgraphs.
  assert (Hfold : forall (ns : list Node) ans,
             Forall (fun g => g <> [] /\
                       forall a b, In a g -> In b g ->
                                   weakly_connected self a b) ans ->
             Forall (fun g => g <> [] /\
                       forall a b, In a g -> In b g ->
                                   weakly_connected self a b)
               (fold_left (place self) ns ans)).
  { induction ns as [|n1 ns IH]; simpl; intros ans Hans; [exact Hans|].
    apply IH. now apply place_connected. }
  apply Hfold. constructor.
Qed.

(** X14. [show_subgraphs] never puts unconnected nodes together: on a graph
    built through the class no group is empty, and two names of one group
    are connected when the direction of the edges is ignored. *)
Theorem groups_are_connected self (Hwf : wf self) :
  (forall g, In g (show_subgraphs self) -> g <> []) /\
  (forall a b,
      same_group (show_subgraphs self) a b -> weakly_connected self a b).
Proof.
  pose proof (show_subgraphs_connected Hwf) as Hall.
  rewrite Forall_forall in Hall. split.
  - intros g Hg. apply (Hall g Hg).
  - intros a b (g & Hg & Ha & Hb). now apply (Hall g Hg).
Qed.

Lemma no_edges_no_path self a b :
  get_all_edges self = [] -> path_exists self a b = None.
Proof.
  intros Hnone. apply path_exists_no_outgoing.
  destruct (Dict.get a (edges self) []) as [|e es] eqn:E; [reflexivity|].
  assert (Hin : In e (Dict.get a (edges self) [])) by (rewrite E; now left).
  apply bucket_stored in Hin. rewrite Hnone in Hin. destruct Hin.
Qed.

(** X15. Without edges every node is on its own: when no edge is stored,
    [show_subgraphs] returns one single-name group for each stored node, in
    the order of the nodes. *)
Theorem show_subgraphs_without_edges self
    (Hnone : get_all_edges self = []) :
  show_subgraphs self = map (fun n => [name n]) (get_all_nodes self).
Proof.
  unfold show_subgraphs.
  assert (Hscan : forall n g, scan_group self n g = false).
  { intros n g. induction g as [|n2 g IH]; simpl; [reflexivity|].
    rewrite (@no_edges_no_path self n n2 Hnone).
    rewrite (@no_edges_no_path self n2 n Hnone). exact IH. }
  assert (Hscans : forall n ans, scan_groups self n ans = None).
  { intros n ans. induction ans as [|g ans IH]; simpl; [reflexivity|].
    now rewrite Hscan, IH. }
  assert (Hfold : forall (ns : list Node) ans,
             fold_left (place self) ns ans =
               ans ++ map (fun n => [name n]) ns).
  { induction ns as [|n1 ns IH]; simpl; intros ans;
      [now rewrite app_nil_r|].
    rewrite IH. unfold place. rewrite Hscans.
    now rewrite <- app_assoc. }
  apply Hfold.
Qed.
End MoreSubgraphs.

(** ** show_subgraphs on graphs whose edges can be travelled back *)

Section TwoWay.
Context {name_t : Type} `{EqDec name_t} {attr : Type}.
Local Abbreviation Graph := (Graph name_t attr).
Local Abbreviation Node := (Node name_t attr).
Implicit Types (self : Graph) (g : list name_t) (ans : list (list name_t)).

Lemma reach_back self a b : two_way self -> reachable self a b -> reachable self b a.
Proof.
  intros Htw. induction 1 as [a b Hab|a b c _ IH1 _ IH2].
  - now apply Htw.
  - now apply t_trans with b.
Qed.

Lemma weak_reach self a b :
  two_way self -> weakly_connected self a b -> a = b \/ reachable self a b.
Proof.
  intros Htw. induction 1 as [a b Hab|a|a b _ IH|a b c _ IH1 _ IH2].
  - right. now apply t_step.
  - now left.
  - destruct IH as [->|Hr]; [now left|]. right. now apply reach_back.
  - destruct IH1 as [->|H1]; [exact IH2|].
    destruct IH2 as [<-|H2]; [now right|].
    right. now apply t_trans with b.
Qed.

Lemma same_group_swap ans (x y : name_t) :
  same_group ans x y -> same_group ans y x.
Proof. intros (g & Hg & Hx & Hy). exists g. auto. Qed.

Lemma same_group_grow_mid (l1 l2 : list (list name_t)) g (n x y : name_t) :
  same_group (l1 ++ g :: l2) x y ->
  same_group (l1 ++ (g ++ [n]) :: l2) x y.
Proof.
  intros (h & Hh & Hx & Hy). apply in_app_iff in Hh.
  destruct Hh as [Hh|[<-|Hh]].
  - exists h. split; [apply in_app_iff; now left | auto].
  - exists (g ++ [n]). split; [apply in_app_iff; right; now left|].
    split; apply in_app_iff; now left.
  - exists h. split; [apply in_app_iff; right; now right | auto].
Qed.

Lemma same_group_grow_end ans (n x y : name_t) :
  same_group ans x y -> same_group (ans ++ [[n]]) x y.
Proof.
  intros (h & Hh & Hx & Hy). exists h.
  split; [apply in_app_iff; now left | auto].
Qed.

Lemma one_group ans (h g : list name_t) (z : name_t) :
  NoDup (List.concat ans) ->
  In h ans -> In g ans -> In z h -> In z g -> h = g.
Proof.
  intros Hnd Hh Hg Hzh Hzg.
  apply In_nth_error in Hh, Hg.
  destruct Hh as [i Hi], Hg as [j Hj].
  assert (i = j) by (eapply NoDup_concat_one_group; eassumption).
  subst j. congruence.
Qed.

Lemma in_place self ans (n1 : Node) (x : name_t) :
  In x (List.concat (place self ans n1)) ->
  x = name n1 \/ In x (List.concat ans).
Proof.
  intros Hin. apply (Permutation_in _ (place_members self ans n1)) in Hin.
  destruct Hin as [<-|Hin]; auto.
Qed.

(** One round of [for n1 in all_nodes] keeps together what a path joins. *)
Lemma place_complete self ans (n1 : Node) :
  wf self -> two_way self ->
  NoDup (List.concat ans) ->
  (forall x y, In x (List.concat ans) -> In y (List.concat ans) ->
               reachable self x y -> same_group ans x y) ->
  forall x y,
    In x (List.concat (place self ans n1)) ->
    In y (List.concat (place self ans n1)) ->
    reachable self x y -> same_group (place self ans n1) x y.
Proof.
  intros Hwf Htw Hnd Hans x y Hx Hy Hxy.
  apply in_place in Hx, Hy. unfold place.
  destruct (scan_groups self (name n1) ans) as [ans'|] eqn:Hs.
  - destruct (scan_groups_some _ _ _ Hs) as (l1 & g & l2 & Hans_eq & -> & Hg).
    assert (Hgin : In g ans)
      by (rewrite Hans_eq; apply in_app_iff; right; now left).
    assert (Hjoin : forall z, In z (List.concat ans) ->
                              reachable self (name n1) z -> In z g).
    { intros z Hz Hnz.
      destruct (scan_group_true _ _ _ Hg) as (n2 & Hn2 & Hor).
      assert (Hn : reachable self (name n1) n2).
      { destruct Hor as [Ht|Ht]; apply (path_exists_reach _ _ Hwf) in Ht;
          [exact Ht | now apply reach_back]. }
      assert (Hzn2 : reachable self z n2).
      { apply t_trans with (name n1); [now apply reach_back | exact Hn]. }
      assert (Hn2c : In n2 (List.concat ans))
        by (apply in_concat; eauto).
      destruct (Hans z n2 Hz Hn2c Hzn2) as (h & Hh & Hzh & Hn2h).
      now rewrite <- (@one_group ans h g n2 Hnd Hh Hgin Hn2h Hn2). }
    assert (Hnew : forall z, In z g ->
                     same_group (l1 ++ (g ++ [name n1]) :: l2) (name n1) z).
    { intros z Hz. exists (g ++ [name n1]).
      split; [apply in_app_iff; right; now left|].
      split; apply in_app_iff; [right; now left | now left]. }
    destruct Hx as [->|Hx], Hy as [->|Hy].
    + exists (g ++ [name n1]).
      split; [apply in_app_iff; right; now left|].
      split; apply in_app_iff; right; now left.
    + apply Hnew. now apply Hjoin.
    + apply same_group_swap. apply Hnew. apply Hjoin; [exact Hx|].
      now apply reach_back.
    + apply same_group_grow_mid. rewrite <- Hans_eq. now apply Hans.
  - pose proof (scan_groups_none _ _ _ Hs) as Hnone.
    assert (Hnever : forall z, In z (List.concat ans) ->
                       ~ reachable self (name n1) z).
    { intros z Hz Hnz. apply in_concat in Hz. destruct Hz as (h & Hh & Hzh).
      destruct (scan_group_false _ _ _ (Hnone h Hh) z Hzh) as [Hf _].
      apply (path_exists_reach _ _ Hwf) in Hnz. congruence. }
    destruct Hx as [->|Hx], Hy as [->|Hy].
    + exists [name n1]. split; [apply in_app_iff; right; now left|].
      split; now left.
    + now destruct (Hnever y Hy).
    + apply reach_back in Hxy; [|exact Htw]. now destruct (Hnever x Hx).
    + apply same_group_grow_end. now apply Hans.
Qed.

Lemma fold_place_complete self (ns : list Node) :
  wf self -> two_way self ->
  forall ans,
    NoDup (List.concat ans ++ map (@name _ _) ns) ->
    (forall x y, In x (List.concat ans) -> In y (List.concat ans) ->
                 reachable self x y -> same_group ans x y) ->
    forall x y,
      In x (List.concat (fold_left (place self) ns ans)) ->
      In y (List.concat (fold_left (place self) ns ans)) ->
      reachable self x y -> same_group (fold_left (place self) ns ans) x y.
Proof.
  intros Hwf Htw. induction ns as [|n1 ns IH]; simpl; intros ans Hnd Hans;
    [exact Hans|].
  apply IH.
  - eapply Permutation_NoDup; [|exact Hnd].
    rewrite (place_members self ans n1). simpl.
    symmetry. apply Permutation_middle.
  - apply place_complete; try assumption.
    now apply NoDup_app_remove_r in Hnd.
Qed.

(** X16. When every stored edge can be travelled back (as when each edge is
    stored with its reverse), the groups of [show_subgraphs] are the
    connected components: on a graph built through the class, two stored
    names are in one group exactly when they are connected with the
    direction of the edges ignored. *)
Theorem show_subgraphs_two_way_components self
    (Hwf : wf self) (Htw : two_way self) :
  forall a b,
    In a (Dict.keys (nodes self)) -> In b (Dict.keys (nodes self)) ->
    (same_group (show_subgraphs self) a b <-> weakly_connected self a b).
Proof.
  intros a b Ha Hb.
  assert (Hmem : forall k, In k (Dict.keys (nodes self)) ->
                           In k (List.concat (show_subgraphs self))).
  { intros k Hk. rewrite <- (wf_node_names Hwf) in Hk.
    apply (Permutation_in _ (Permutation_sym (show_subgraphs_members self))).
    exact Hk. }
  split.
  - intros (g & Hg & Hag & Hbg).
    pose proof (show_subgraphs_connected Hwf) as Hall.
    rewrite Forall_forall in Hall. now apply (Hall g Hg).
  - intros Hw. destruct (weak_reach Htw Hw) as [->|Hr].
    + pose proof (Hmem b Hb) as Hin. apply in_concat in Hin.
      destruct Hin as (g & Hg & Hbg). exists g. auto.
    + unfold show_subgraphs.
      apply (@fold_place_complete self (get_all_nodes self) Hwf Htw []).
      * simpl. rewrite (wf_node_names Hwf). apply (wf_nodes_nodup Hwf).
      * intros x y [].
      * now apply Hmem.
      * now apply Hmem.
      * exact Hr.
Qed.
End TwoWay.

(** ** The further properties on the fixtures *)

Section MoreFixtureChecks.
Import Fixtures.

Local Ltac in_list :=
  vm_compute; repeat (first [left; reflexivity | right]).
Local Ltac not_in_list := vm_compute; intuition discriminate.
Local Ltac stored a b :=
  exists (edge a b); split; [in_list | split; reflexivity].

Lemma wf_G4 : wf G4.
Proof. apply wf_Graph_init. Qed.

Lemma two_way_G4 : two_way G4.
Proof.
  intros a b (e & Hin & <- & <-). vm_compute in Hin.
  destruct Hin as [<-|[<-|[<-|[<-|[]]]]]; simpl; apply t_step.
  - stored 1 0.
  - stored 0 1.
  - stored 2 1.
  - stored 1 2.
Qed.

Example G4_groups : show_subgraphs G4 = [[0; 1; 2]; [3]].
Proof. vm_compute. reflexivity. Qed.

Lemma add_node_fresh_witness :
  ~ In 7 (Dict.keys (nodes G1)) /\
  get_all_nodes (fst (add_node (node 7) false G1)) =
    get_all_nodes G1 ++ [node 7] /\
  num_nodes (fst (add_node (node 7) false G1)) = 8.
Proof.
  assert (Hnew : ~ In (name (node 7)) (Dict.keys (nodes G1)))
    by not_in_list.
  destruct (@add_node_fresh Z _ unit G1 (node 7) false Hnew)
    as (_ & _ & Hall & _ & _ & Hnum & _).
  split; [exact Hnew|]. split; [exact Hall|]. rewrite Hnum. reflexivity.
Defined.

Lemma add_edge_accepted_witness :
  In 5 (Dict.keys (nodes G1)) /\ In 6 (Dict.keys (nodes G1)) /\
  Dict.get 5 (edges (fst (add_edge (edge 5 6) G1))) [] = [edge 5 6] /\
  num_edges (fst (add_edge (edge 5 6) G1)) = 7.
Proof.
  assert (Hs : In (start (edge 5 6)) (Dict.keys (nodes G1))) by in_list.
  assert (He : In (end_ (edge 5 6)) (Dict.keys (nodes G1))) by in_list.
  destruct (@add_edge_accepted Z _ unit G1 (edge 5 6) Hs He)
    as (_ & Hb & _ & _ & Hnum & _).
  split; [exact Hs|]. split; [exact He|]. split.
  - exact Hb.
  - rewrite Hnum. reflexivity.
Defined.

Lemma counters_bound_invariant_witness :
  counters_bound G1 /\
  counters_bound (fst (add_node artist3 true G1)) /\
  counters_bound (fst (add_edge (edge 5 6) G1)).
Proof.
  destruct (@counters_bound_invariant Z _ unit) as (Hinit & Hnode & Hedge).
  assert (H1 : counters_bound G1) by apply Hinit.
  split; [exact H1|]. split; [now apply Hnode | now apply Hedge].
Defined.

Lemma counters_exact_without_update_witness :
  num_nodes G1 = Z.of_nat (List.length (nodes G1)) /\
  num_nodes (fst (add_node (node 7) false G1)) =
    Z.of_nat (List.length (nodes (fst (add_node (node 7) false G1)))).
Proof.
  destruct (@counters_exact_without_update Z _ unit) as (Hinit & Hnode & _).
  pose proof (Hinit (map node [0; 1; 2; 3; 4; 5; 6])
                [edge 0 1; edge 1 2; edge 2 3; edge 3 0; edge 4 5; edge 6 4])
    as H1.
  split; [exact (proj1 H1)|].
  exact (proj1 (Hnode G1 (node 7) H1)).
Defined.

Lemma Graph_init_nodes_witness :
  NoDup (map (@name Z unit) (map node [0; 1; 2])) /\
  get_all_nodes (fst (Graph_init (map node [0; 1; 2]) [edge 0 2; edge 1 2])) =
    map node [0; 1; 2] /\
  Dict.get 3 (nodes (fst (Graph_init (fst G5_args) (snd G5_args)))) (node 0)
    = artist3.
Proof.
  assert (Hnd : NoDup (map (@name Z unit) (map node [0; 1; 2]))).
  { simpl. repeat (constructor; [simpl; intuition discriminate|]).
    constructor. }
  split; [exact Hnd|]. split.
  - exact (proj2 (proj2 (@Graph_init_nodes Z _ unit (map node [0; 1; 2])
                           [edge 0 2; edge 1 2])) Hnd).
  - rewrite (proj1 (proj2 (@Graph_init_nodes Z _ unit (fst G5_args)
                             (snd G5_args)))).
    reflexivity.
Defined.

Lemma bucket_is_filter_witness :
  wf G3 /\
  Dict.get 1 (edges G3) [] = filter (starts_at 1) (get_all_edges G3).
Proof. split; [apply wf_G3 | apply (bucket_is_filter 1 wf_G3)]. Defined.

Lemma path_exists_decides_reachability_witness :
  wf G1 /\ reachable G1 0 3 /\ ~ reachable G1 4 6.
Proof.
  split; [apply wf_G1|]. split.
  - apply (proj1 (path_exists_decides_reachability 0 3 wf_G1)).
    vm_compute. reflexivity.
  - apply (proj2 (path_exists_decides_reachability 4 6 wf_G1)).
    vm_compute. reflexivity.
Defined.

Lemma path_exists_shortest_witness :
  wf G1 /\ path_exists G1 0 3 = Some [0; 1; 2] /\
  hd_error [0; 1; 2; 3; 0; 1; 2] = Some 0 /\
  linked (stored_edge G1) [0; 1; 2; 3; 0; 1; 2] /\
  (List.length [0; 1; 2] <= List.length [0; 1; 2; 3; 0; 1; 2])%nat.
Proof.
  assert (Hp : path_exists G1 0 3 = Some [0; 1; 2])
    by (vm_compute; reflexivity).
  assert (Hl : linked (stored_edge G1) [0; 1; 2; 3; 0; 1; 2]).
  { simpl. repeat split.
    - stored 0 1.
    - stored 1 2.
    - stored 2 3.
    - stored 3 0.
    - stored 0 1.
    - stored 1 2. }
  split; [apply wf_G1|]. split; [exact Hp|]. split; [reflexivity|].
  split; [exact Hl|].
  apply (@path_exists_shortest Z _ unit G1 0 3 [0; 1; 2] wf_G1 Hp
           [0; 1; 2; 3; 0; 1; 2]).
  - reflexivity.
  - exact Hl.
  - exists [0; 1; 2; 3; 0; 1], 2. split; [reflexivity|]. stored 2 3.
Defined.

Lemma path_exists_unknown_name_witness :
  wf G1 /\ ~ In 9 (Dict.keys (nodes G1)) /\ path_exists G1 0 9 = None.
Proof.
  assert (Hnin : ~ In 9 (Dict.keys (nodes G1))) by not_in_list.
  split; [apply wf_G1|]. split; [exact Hnin|].
  apply (@path_exists_unknown_name Z _ unit G1 0 9 wf_G1). now right.
Defined.

Lemma add_edge_adds_paths_witness :
  wf G1 /\ In 3 (Dict.keys (nodes G1)) /\ In 4 (Dict.keys (nodes G1)) /\
  truthy (path_exists (fst (add_edge (edge 3 4) G1)) 3 4) = true /\
  truthy (path_exists (fst (add_edge (edge 3 4) G1)) 0 3) = true.
Proof.
  assert (Hs : In (start (edge 3 4)) (Dict.keys (nodes G1))) by in_list.
  assert (He : In (end_ (edge 3 4)) (Dict.keys (nodes G1))) by in_list.
  destruct (add_edge_adds_paths (edge 3 4) wf_G1) as [Hkeep Hnew].
  split; [apply wf_G1|]. split; [exact Hs|]. split; [exact He|]. split.
  - exact (Hnew Hs He).
  - apply Hkeep. vm_compute. reflexivity.
Defined.

Lemma groups_are_connected_witness :
  wf G1 /\ same_group (show_subgraphs G1) 4 6 /\ weakly_connected G1 4 6.
Proof.
  assert (Hsg : same_group (show_subgraphs G1) 4 6).
  { rewrite G1_groups. exists [4; 5; 6]. simpl. auto 10. }
  split; [apply wf_G1|]. split; [exact Hsg|].
  exact (proj2 (groups_are_connected wf_G1) 4 6 Hsg).
Defined.

Lemma show_subgraphs_without_edges_witness :
  get_all_edges (fst (Graph_init (map node [0; 1; 2]) [])) = [] /\
  show_subgraphs (fst (Graph_init (map node [0; 1; 2]) [])) = [[0]; [1]; [2]].
Proof.
  assert (Hnone : get_all_edges
                    (fst (@Graph_init Z _ unit (map node [0; 1; 2]) [])) = [])
    by reflexivity.
  split; [exact Hnone|].
  rewrite (show_subgraphs_without_edges _ Hnone). reflexivity.
Defined.

Lemma show_subgraphs_two_way_components_witness :
  wf G4 /\ two_way G4 /\
  In 0 (Dict.keys (nodes G4)) /\ In 2 (Dict.keys (nodes G4)) /\
  weakly_connected G4 0 2 /\ ~ weakly_connected G4 0 3.
Proof.
  assert (H0 : In 0 (Dict.keys (nodes G4))) by in_list.
  assert (H2 : In 2 (Dict.keys (nodes G4))) by in_list.
  assert (H3 : In 3 (Dict.keys (nodes G4))) by in_list.
  split; [apply wf_G4|]. split; [apply two_way_G4|].
  split; [exact H0|]. split; [exact H2|]. split.
  - apply (show_subgraphs_two_way_components wf_G4 two_way_G4 0 2 H0 H2).
    rewrite G4_groups. exists [0; 1; 2]. simpl. auto 10.
  - intros Hw.
    apply (show_subgraphs_two_way_components wf_G4 two_way_G4 0 3 H0 H3) in Hw.
    rewrite G4_groups in Hw. destruct Hw as (g & Hg & Ha & Hb).
    destruct Hg as [<-|[<-|[]]]; simpl in Ha, Hb; intuition discriminate.
Defined.
End MoreFixtureChecks.

(** ** path_exists: direct edges, and the names of a returned path *)

Section PathShape.
Context {name_t : Type} `{EqDec name_t} {attr : Type}.
Local Abbreviation Graph := (Graph name_t attr).
Local Abbreviation Node := (Node name_t attr).
Implicit Types (self : Graph) (p : list name_t).

(** X17. A direct edge is found at once: on a graph built through the
    class, when an edge from [start'] to [end'] is stored, [path_exists]
    returns the one-name list [[start']]; with [end' = start'] this is the
    case of a stored self-edge. *)
Theorem path_exists_direct_edge self start' end'
    (Hwf : wf self) (Hedge : stored_edge self start' end') :
  path_exists self start' end' = Some [start'].
Proof.
  apply (stored_edge_bucket Hwf) in Hedge.
  unfold path_exists, path_fuel. simpl.
  now rewrite (@for_options_hit _ _ end' [start'] _ [] Hedge).
Qed.

Lemma chain_in_keys self start' c :
  wf self -> chain self start' c ->
  forall e, bucket_edge self (hd start' c) e ->
            incl c (Dict.keys (nodes self)).
Proof.
  intros Hwf. induction 1 as [|n c0 rest Hc IH Hb]; simpl; intros e He.
  - intros x [<-|[]].
    apply bucket_edge_stored in He; [|exact Hwf].
    apply (reach_ends Hwf (t_step _ _ _ _ He)).
  - intros x [<-|Hx]; [|now apply (IH n Hb)].
    apply bucket_edge_stored in He; [|exact Hwf].
    apply (reach_ends Hwf (t_step _ _ _ _ He)).
Qed.

(** X18. A returned path stays within the stored nodes: on a graph built
    through the class, every name of the list that [path_exists] returns is
    a key of [nodes], so (the names being distinct) the list has at most as
    many names as there are stored nodes. *)
Theorem path_exists_within_nodes self start' end' p
    (Hwf : wf self) (Hp : path_exists self start' end' = Some p) :
  incl p (Dict.keys (nodes self)) /\
  (List.length p <= List.length (nodes self))%nat.
Proof.
  destruct (path_exists_found _ _ _ Hp) as (c0 & rest & -> & Hnd & Hc & Hb).
  assert (Hincl : incl (rev (c0 :: rest)) (Dict.keys (nodes self))).
  { intros x Hx. apply in_rev in Hx.
    exact (@chain_in_keys self start' (c0 :: rest) Hwf Hc end' Hb x Hx). }
  split; [exact Hincl|].
  pose proof (NoDup_incl_length (NoDup_rev Hnd) Hincl) as Hlen.
  unfold Dict.keys in Hlen. now rewrite length_map in Hlen.
Qed.

Lemma path_exists_unknown self start' end' :
  wf self ->
  ~ In start' (Dict.keys (nodes self)) \/ ~ In end' (Dict.keys (nodes self)) ->
  path_exists self start' end' = None.
Proof.
  intros Hwf Hunknown.
  destruct (path_exists self start' end') as [p|] eqn:Hp; [|reflexivity].
  exfalso.
  destruct (path_exists_found _ _ _ Hp) as (c0 & rest & Hrev & _).
  assert (Ht : truthy (path_exists self start' end') = true)
    by (apply (@truthy_found _ _ c0 rest); now rewrite Hp, Hrev).
  apply (path_exists_reach start' end' Hwf) in Ht.
  destruct (reach_ends Hwf Ht). tauto.
Qed.

Lemma scan_group_ext self1 self2 n g :
  (forall a b, path_exists self1 a b = path_exists self2 a b) ->
  scan_group self1 n g = scan_group self2 n g.
Proof.
  intros Hext. induction g as [|n2 g IH]; simpl; [reflexivity|].
  now rewrite !Hext, IH.
Qed.

Lemma scan_groups_ext self1 self2 n ans :
  (forall a b, path_exists self1 a b = path_exists self2 a b) ->
  scan_groups self1 n ans = scan_groups self2 n ans.
Proof.
  intros Hext. induction ans as [|g ans IH]; simpl; [reflexivity|].
  now rewrite (@scan_group_ext self1 self2 n g Hext), IH.
Qed.

Lemma fold_place_ext self1 self2 (ns : list Node) :
  (forall a b, path_exists self1 a b = path_exists self2 a b) ->
  forall ans,
    fold_left (place self1) ns ans = fold_left (place self2) ns ans.
Proof.
  intros Hext. induction ns as [|n1 ns IH]; simpl; intros ans; [reflexivity|].
  rewrite IH. unfold place.
  now rewrite (@scan_groups_ext self1 self2 (name n1) ans Hext).
Qed.

Lemma scan_groups_unrelated self n ans :
  (forall m, path_exists self n m = None /\ path_exists self m n = None) ->
  scan_groups self n ans = None.
Proof.
  intros Hnone.
  assert (Hg : forall g, scan_group self n g = false).
  { induction g as [|m g IH]; simpl; [reflexivity|].
    destruct (Hnone m) as [-> ->]. exact IH. }
  induction ans as [|g ans IH]; simpl; [reflexivity|].
  now rewrite Hg, IH.
Qed.

(** X19. A new node without edges gets a group of its own: on a graph built
    through the class, after [add_node] of a name that was not a key,
    [show_subgraphs] returns the groups it returned before, followed by the
    single-name group of the new node. *)
Theorem show_subgraphs_after_add_node self (node : Node) allow_update
    (Hwf : wf self) (Hnew : ~ In (name node) (Dict.keys (nodes self))) :
  show_subgraphs (fst (add_node node allow_update self)) =
  show_subgraphs self ++ [[name node]].
Proof.
  unfold show_subgraphs.
  destruct (@add_node_fresh_spec _ _ _ self node allow_update Hnew)
    as (_ & _ & Hall & _).
  rewrite Hall, fold_left_app. simpl.
  rewrite (@fold_place_ext (fst (add_node node allow_update self)) self).
  2:{ intros a b. apply path_exists_edges_only. apply add_node_edges. }
  unfold place at 1.
  rewrite (@scan_groups_ext (fst (add_node node allow_update self)) self).
  2:{ intros a b. apply path_exists_edges_only. apply add_node_edges. }
  rewrite scan_groups_unrelated; [reflexivity|].
  intros m. split; apply path_exists_unknown; auto.
Qed.
End PathShape.

(** ** show_subgraphs: the first names of the groups *)

Section Leaders.
Context {name_t : Type} `{EqDec name_t} {attr : Type}.
Local Abbreviation Graph := (Graph name_t attr).
Local Abbreviation Node := (Node name_t attr).
Implicit Types (self : Graph) (g : list name_t) (ans : list (list name_t)).

Lemma pairs_snoc {A : Type} (R : A -> A -> Prop) (l : list A) (x : A) :
  ForallOrdPairs R l -> Forall (fun y => R y x) l ->
  ForallOrdPairs R (l ++ [x]).
Proof.
  induction 1 as [|a l Ha Hl IH]; simpl; intros Hx.
  - repeat constructor.
  - constructor.
    + apply Forall_app. split; [exact Ha|].
      constructor; [now apply Forall_inv in Hx | constructor].
    + apply IH. now apply Forall_inv_tail in Hx.
Qed.

Lemma pairs_replace {A : Type} (R : A -> A -> Prop) (l1 l2 : list A) (x x' : A) :
  (forall y, R y x -> R y x') -> (forall y, R x y -> R x' y) ->
  ForallOrdPairs R (l1 ++ x :: l2) -> ForallOrdPairs R (l1 ++ x' :: l2).
Proof.
  intros Hl Hr. induction l1 as [|a l1 IH]; simpl; intros Hp.
  - inversion Hp as [|? ? Ha Hrest]; subst. constructor; [|exact Hrest].
    eapply Forall_impl; [|exact Ha]. exact Hr.
  - inversion Hp as [|? ? Ha Hrest]; subst. constructor; [|now apply IH].
    apply Forall_app in Ha. destruct Ha as [Ha1 Ha2].
    apply Forall_app. split; [exact Ha1|].
    constructor; [|now apply Forall_inv_tail in Ha2].
    apply Hl. now apply Forall_inv in Ha2.
Qed.

Lemma pairs_nth {A : Type} (R : A -> A -> Prop) (l : list A) :
  ForallOrdPairs R l ->
  forall i j x y,
    (i < j)%nat -> nth_error l i = Some x -> nth_error l j = Some y -> R x y.
Proof.
  induction 1 as [|a l Ha Hl IH]; intros i j x y Hij Hi Hj.
  - destruct i; discriminate.
  - destruct j as [|j]; [lia|]. simpl in Hj.
    destruct i as [|i]; simpl in Hi.
    + injection Hi as <-. rewrite Forall_forall in Ha. apply Ha.
      now apply nth_error_In with j.
    + apply (IH i j); [lia | assumption | assumption].
Qed.

Lemma place_apart self ans (n1 : Node) :
  Forall (fun g => g <> []) ans -> ForallOrdPairs (apart self) ans ->
  Forall (fun g => g <> []) (place self ans n1) /\
  ForallOrdPairs (apart self) (place self ans n1).
Proof.
  intros Hne Hp. unfold place.
  destruct (scan_groups self (name n1) ans) as [ans'|] eqn:Hs.
  - destruct (scan_groups_some _ _ _ Hs) as (l1 & g & l2 & -> & -> & Hg).
    assert (Hgne : g <> []).
    { apply Forall_app in Hne. destruct Hne as [_ Hne].
      now apply Forall_inv in Hne. }
    assert (Hhd : hd_error (g ++ [name n1]) = hd_error g)
      by (destruct g; [contradiction | reflexivity]).
    split.
    + apply Forall_app in Hne. destruct Hne as [H1 H2].
      apply Forall_app. split; [exact H1|].
      constructor; [destruct g; discriminate | now apply Forall_inv_tail in H2].
    + apply (@pairs_replace _ (apart self) l1 l2 g (g ++ [name n1]));
        [| |exact Hp].
      * intros y Hy a b Ha Hb. rewrite Hhd in Hb. now apply Hy.
      * intros y Hy a b Ha Hb. rewrite Hhd in Ha. now apply Hy.
  - pose proof (scan_groups_none _ _ _ Hs) as Hnone. split.
    + apply Forall_app. split; [exact Hne|].
      constructor; [discriminate | constructor].
    + apply pairs_snoc; [exact Hp|].
      apply Forall_forall. intros g Hg a b Ha Hb.
      simpl in Hb. injection Hb as <-.
      apply (scan_group_false _ _ _ (Hnone g Hg)).
      destruct g as [|x g]; [discriminate|].
      simpl in Ha. injection Ha as <-. now left.
Qed.

Lemma show_subgraphs_apart self :
  ForallOrdPairs (apart self) (show_subgraphs self).
Proof.
  unfold show_subgraphs.
  assert (Hfold : forall (ns : list Node) ans,
             Forall (fun g => g <> []) ans ->
             ForallOrdPairs (apart self) ans ->
             ForallOrdPairs (apart self) (fold_left (place self) ns ans)).
  { induction ns as [|n1 ns IH]; simpl; intros ans Hne Hp; [exact Hp|].
    destruct (place_apart n1 Hne Hp) as [Hne' Hp']. now apply IH. }
  apply Hfold; constructor.
Qed.

Lemma truthy_false_none self (a b : name_t) :
  truthy (path_exists self a b) = false -> path_exists self a b = None.
Proof.
  intros Hf. destruct (path_exists self a b) as [p|] eqn:Hp; [|reflexivity].
  destruct (path_exists_found _ _ _ Hp) as (c0 & rest & Hrev & _).
  rewrite (@truthy_found _ _ c0 rest) in Hf; [discriminate|].
  now rewrite Hrev.
Qed.

(** X20. A node opens a new group only when no path joins it to the groups
    there are: in what [show_subgraphs] returns, for the first names [a] and
    [b] of two different groups [path_exists(a, b)] is [False]. *)
Theorem group_leaders_unrelated self :
  forall i j gi gj a b,
    i <> j ->
    nth_error (show_subgraphs self) i = Some gi ->
    nth_error (show_subgraphs self) j = Some gj ->
    hd_error gi = Some a -> hd_error gj = Some b ->
    path_exists self a b = None.
Proof.
  intros i j gi gj a b Hij Hi Hj Ha Hb. apply truthy_false_none.
  pose proof (show_subgraphs_apart self) as Hp.
  destruct (Nat.lt_ge_cases i j) as [Hlt|Hge].
  - exact (proj2 (pairs_nth Hp Hlt Hi Hj a b Ha Hb)).
  - assert (Hlt : (j < i)%nat) by lia.
    exact (proj1 (pairs_nth Hp Hlt Hj Hi b a Hb Ha)).
Qed.
End Leaders.

(** ** sort_subgroups *)

Section SortFacts.
Import SortSubgroups.

Lemma insert_by_perm {A : Type} (key : A -> Z) (x : A) (l : list A) :
  Permutation (insert_by key x l) (x :: l).
Proof.
  induction l as [|y l IH]; simpl; [reflexivity|].
  destruct (key x <=? key y); [reflexivity|].
  rewrite IH. apply perm_swap.
Qed.

Lemma sort_by_perm {A : Type} (key : A -> Z) (l : list A) :
  Permutation (sort_by key l) l.
Proof.
  induction l as [|x l IH]; simpl; [reflexivity|].
  rewrite insert_by_perm. now constructor.
Qed.

Lemma insert_by_sorted {A : Type} (key : A -> Z) (x : A) (l : list A) :
  StronglySorted (fun a b => key a <= key b) l ->
  StronglySorted (fun a b => key a <= key b) (insert_by key x l).
Proof.
  induction 1 as [|y l Hl IH Hy]; simpl.
  - repeat constructor.
  - destruct (key x <=? key y) eqn:E.
    + apply Z.leb_le in E. constructor; [now constructor|].
      constructor; [exact E|].
      eapply Forall_impl; [|exact Hy]. intros z Hz. simpl in Hz. lia.
    + apply Z.leb_gt in E. constructor; [exact IH|].
      apply (Permutation_Forall (Permutation_sym (insert_by_perm key x l))).
      constructor; [lia | exact Hy].
Qed.

Lemma sort_by_sorted {A : Type} (key : A -> Z) (l : list A) :
  StronglySorted (fun a b => key a <= key b) (sort_by key l).
Proof.
  induction l as [|x l IH]; simpl; [constructor|].
  now apply insert_by_sorted.
Qed.

Lemma sort_by_nonempty {A : Type} (key : A -> Z) (l : list A) :
  l <> [] -> sort_by key l <> [].
Proof.
  intros Hne Hs. pose proof (Permutation_length (sort_by_perm key l)) as Hlen.
  rewrite Hs in Hlen. destruct l; [contradiction | discriminate].
Qed.

Lemma nonempty_check (gs : list (list Z)) :
  forallb (fun g => match g with [] => false | _ :: _ => true end) gs = true
  <-> Forall (fun g => g <> []) gs.
Proof.
  rewrite forallb_forall, Forall_forall. split; intros Hall g Hg.
  - specialize (Hall g Hg). destruct g; [discriminate | discriminate].
  - specialize (Hall g Hg). destruct g; [contradiction | reflexivity].
Qed.

Lemma sorted_groups_members (gs gs' : list (list Z)) :
  Permutation gs' (map (sort_by (fun x => x)) gs) ->
  forall a b, same_group gs' a b <-> same_group gs a b.
Proof.
  intros Hperm a b. split.
  - intros (g' & Hg' & Ha & Hb).
    apply (Permutation_in _ Hperm) in Hg'.
    apply in_map_iff in Hg'. destruct Hg' as (g & <- & Hg).
    exists g. split; [exact Hg|].
    split; eapply Permutation_in; try apply sort_by_perm; eassumption.
  - intros (g & Hg & Ha & Hb).
    exists (sort_by (fun x => x) g). split.
    + apply (Permutation_in _ (Permutation_sym Hperm)). now apply in_map.
    + split; eapply Permutation_in;
        try (apply Permutation_sym; apply sort_by_perm); eassumption.
Qed.

Lemma sort_subgroups_done (gs : list (list Z)) :
  Forall (fun g => g <> []) gs ->
  sort_subgroups gs =
    (sort_by (hd 0) (map (sort_by (fun x => x)) gs), Done tt).
Proof.
  intros Hne. unfold sort_subgroups.
  destruct (forallb _ (map (sort_by (fun x => x)) gs)) eqn:E; [reflexivity|].
  assert (Hall : Forall (fun g => g <> []) (map (sort_by (fun x : Z => x)) gs)).
  { apply Forall_forall. intros g' Hg'. apply in_map_iff in Hg'.
    destruct Hg' as (g & <- & Hg). apply sort_by_nonempty.
    rewrite Forall_forall in Hne. now apply Hne. }
  apply nonempty_check in Hall. congruence.
Qed.

Lemma sort_subgroups_spec (gs : list (list Z)) :
  Forall (fun g => g <> []) gs ->
  exists gs',
    sort_subgroups gs = (gs', Done tt) /\
    Forall (StronglySorted Z.le) gs' /\
    StronglySorted (fun g h => hd 0 g <= hd 0 h) gs' /\
    Permutation gs' (map (sort_by (fun x => x)) gs) /\
    (forall a b, same_group gs' a b <-> same_group gs a b).
Proof.
  intros Hne. exists (sort_by (hd 0) (map (sort_by (fun x => x)) gs)).
  split; [now apply sort_subgroups_done|].
  assert (Hperm : Permutation
                    (sort_by (hd 0) (map (sort_by (fun x : Z => x)) gs))
                    (map (sort_by (fun x => x)) gs)) by apply sort_by_perm.
  split; [|split; [|split]].
  - apply (Permutation_Forall (Permutation_sym Hperm)).
    apply Forall_forall. intros g' Hg'. apply in_map_iff in Hg'.
    destruct Hg' as (g & <- & _). apply (sort_by_sorted (fun x : Z => x)).
  - apply (sort_by_sorted (hd 0)).
  - exact Hperm.
  - now apply sorted_groups_members.
Qed.

(** X21. [sort_subgroups] on groups that are all non-empty ends normally
    and leaves each group sorted in ascending order and the groups ordered
    by their first (so smallest) name; the groups are the old ones, each
    rearranged, so two names share a group after the call exactly when
    they did before. *)
Theorem sort_subgroups_sorts (gs : list (list Z))
    (Hne : Forall (fun g => g <> []) gs) :
  exists gs',
    sort_subgroups gs = (gs', Done tt) /\
    Forall (StronglySorted Z.le) gs' /\
    StronglySorted (fun g h => hd 0 g <= hd 0 h) gs' /\
    Permutation gs' (map (sort_by (fun x => x)) gs) /\
    (forall a b, same_group gs' a b <-> same_group gs a b).
Proof. exact (sort_subgroups_spec Hne). Qed.

(** X22. [sort_subgroups] on a list with an empty group raises
    [IndexError] (from the key [x[0]]); the groups have been sorted one by
    one by then and are left in their order. *)
Theorem sort_subgroups_empty_group (gs : list (list Z)) (Hin : In [] gs) :
  sort_subgroups gs = (map (sort_by (fun x => x)) gs, IndexError).
Proof.
  unfold sort_subgroups.
  destruct (forallb _ (map (sort_by (fun x => x)) gs)) eqn:E; [|reflexivity].
  apply nonempty_check in E. rewrite Forall_forall in E.
  exfalso. apply (E []); [|reflexivity].
  apply in_map_iff. exists []. auto.
Qed.

(** X23. [sort_subgroups] applied to what [show_subgraphs] returns never
    raises, for any graph with integer names: no group is empty, the call
    ends normally with sorted groups in the order of their first names, and
    it changes nothing about which names share a group. *)
Theorem sort_subgroups_of_show_subgraphs
    (attr : Type) (self : Graph Z attr) :
  exists gs',
    sort_subgroups (show_subgraphs self) = (gs', Done tt) /\
    Forall (StronglySorted Z.le) gs' /\
    StronglySorted (fun g h => hd 0 g <= hd 0 h) gs' /\
    (forall a b,
        same_group gs' a b <-> same_group (show_subgraphs self) a b).
Proof.
  assert (Hne : Forall (fun g : list Z => g <> []) (show_subgraphs self)).
  { unfold show_subgraphs.
    assert (Hfold : forall (ns : list (Node Z attr)) ans,
               Forall (fun g : list Z => g <> []) ans ->
               ForallOrdPairs (apart self) ans ->
               Forall (fun g : list Z => g <> [])
                 (fold_left (place self) ns ans)).
    { induction ns as [|n1 ns IH]; simpl; intros ans Hne Hp; [exact Hne|].
      destruct (place_apart n1 Hne Hp) as [Hne' Hp']. now apply IH. }
    apply Hfold; constructor. }
  destruct (sort_subgroups_spec Hne) as (gs' & Hs & H1 & H2 & _ & H3).
  exists gs'. auto.
Qed.
End SortFacts.

(** ** The fixtures again: the subgroup tests of graph.py *)

Section SubgroupTests.
Import Fixtures SortSubgroups.

Local Ltac in_list :=
  vm_compute; repeat (first [left; reflexivity | right]).
Local Ltac not_in_list := vm_compute; intuition discriminate.

(** The two assertions on sorted groups at the end of graph.py. *)
Example G1_sorted_groups :
  sort_subgroups (show_subgraphs G1) = ([[0; 1; 2; 3]; [4; 5; 6]], Done tt).
Proof. vm_compute. reflexivity. Qed.

Example G2_sorted_groups :
  sort_subgroups (show_subgraphs G2) =
    ([[0; 4; 6]; [1; 2; 5; 9]; [3; 7]; [8]], Done tt).
Proof. vm_compute. reflexivity. Qed.

Lemma path_exists_direct_edge_witness :
  wf G1 /\ stored_edge G1 6 4 /\ path_exists G1 6 4 = Some [6].
Proof.
  assert (He : stored_edge G1 6 4)
    by (exists (edge 6 4); split; [in_list | split; reflexivity]).
  split; [apply wf_G1|]. split; [exact He|].
  exact (path_exists_direct_edge wf_G1 He).
Defined.

Lemma path_exists_within_nodes_witness :
  wf G1 /\ path_exists G1 1 0 = Some [1; 2; 3] /\
  incl [1; 2; 3] (Dict.keys (nodes G1)) /\
  (List.length [1; 2; 3] <= List.length (nodes G1))%nat.
Proof.
  assert (Hp : path_exists G1 1 0 = Some [1; 2; 3])
    by (vm_compute; reflexivity).
  split; [apply wf_G1|]. split; [exact Hp|].
  exact (@path_exists_within_nodes Z _ unit G1 1 0 [1; 2; 3] wf_G1 Hp).
Defined.

Lemma show_subgraphs_after_add_node_witness :
  wf G1 /\ ~ In 7 (Dict.keys (nodes G1)) /\
  show_subgraphs (fst (add_node (node 7) false G1)) =
    [[0; 1; 2; 3]; [4; 5; 6]; [7]].
Proof.
  assert (Hnew : ~ In (name (node 7)) (Dict.keys (nodes G1)))
    by not_in_list.
  split; [apply wf_G1|]. split; [exact Hnew|].
  rewrite (@show_subgraphs_after_add_node Z _ unit G1 (node 7) false
             wf_G1 Hnew).
  rewrite G1_groups. reflexivity.
Defined.

Lemma group_leaders_unrelated_witness :
  0%nat <> 1%nat /\
  nth_error (show_subgraphs G3) 0 = Some [0; 2] /\
  nth_error (show_subgraphs G3) 1 = Some [1] /\
  path_exists G3 0 1 = None /\ path_exists G3 1 0 = None.
Proof.
  assert (H0 : nth_error (show_subgraphs G3) 0 = Some [0; 2])
    by (vm_compute; reflexivity).
  assert (H1 : nth_error (show_subgraphs G3) 1 = Some [1])
    by (vm_compute; reflexivity).
  split; [discriminate|]. split; [exact H0|]. split; [exact H1|]. split.
  - apply (@group_leaders_unrelated Z _ unit G3 0%nat 1%nat [0; 2] [1] 0 1);
      [discriminate | exact H0 | exact H1 | reflexivity | reflexivity].
  - apply (@group_leaders_unrelated Z _ unit G3 1%nat 0%nat [1] [0; 2] 1 0);
      [discriminate | exact H1 | exact H0 | reflexivity | reflexivity].
Defined.

Lemma sort_subgroups_sorts_witness :
  Forall (fun g : list Z => g <> []) [[5; 3]; [2; 9; 1]] /\
  exists gs',
    sort_subgroups [[5; 3]; [2; 9; 1]] = (gs', Done tt) /\
    Forall (StronglySorted Z.le) gs' /\
    (same_group gs' 9 1 <-> same_group [[5; 3]; [2; 9; 1]] 9 1).
Proof.
  assert (Hne : Forall (fun g : list Z => g <> []) [[5; 3]; [2; 9; 1]])
    by (repeat constructor; discriminate).
  split; [exact Hne|].
  destruct (sort_subgroups_sorts Hne) as (gs' & Hs & Hsorted & _ & _ & Hsame).
  exists gs'. split; [exact Hs|]. split; [exact Hsorted | apply Hsame].
Defined.

Lemma sort_subgroups_empty_group_witness :
  In [] [[2; 1]; []; [0]] /\
  sort_subgroups [[2; 1]; []; [0]] = ([[1; 2]; []; [0]], IndexError).
Proof.
  assert (Hin : In [] [[2; 1]; []; [0 : Z]]) by (right; now left).
  split; [exact Hin|].
  rewrite (sort_subgroups_empty_group _ Hin). reflexivity.
Defined.
End SubgroupTests.

(** ** path_exists from a node to itself *)

Section SelfPaths.
Import Fixtures.

Local Ltac in_list :=
  vm_compute; repeat (first [left; reflexivity | right]).

Lemma self_path_is_cycle {name_t : Type} `{EqDec name_t} {attr : Type}
    (self : Graph name_t attr) (a : name_t) (p : list name_t) :
  path_exists self a a = Some p ->
  clos_trans name_t (bucket_edge self) a a.
Proof.
  intros Hp.
  destruct (path_exists_found _ _ _ Hp) as (c0 & rest & _ & _ & Hc & Hb).
  exact (chain_reach Hc a Hb).
Qed.

Lemma trivial_path_needs_self_edge {name_t : Type} `{EqDec name_t}
    {attr : Type} (self : Graph name_t attr) (a : name_t) :
  path_exists self a a = Some [a] -> bucket_edge self a a.
Proof.
  intros Hp.
  destruct (path_exists_found _ _ _ Hp) as (c0 & rest & Hrev & _ & _ & Hb).
  apply (f_equal (@rev name_t)) in Hrev. rewrite rev_involutive in Hrev.
  simpl in Hrev. injection Hrev as <- _. exact Hb.
Qed.

(** C9. A node reaches itself only through edges. For every graph: when
    [path_exists(a, a)] returns a list, the buckets hold a cycle of one or
    more edges from [a] back to [a]; the one-name list [[a]] is returned
    only when [a] has an edge to itself; and a node whose bucket is empty or
    missing gets [False]. On a graph built through the class
    [path_exists(a, a)] is a true value exactly when [a] can be reached
    from [a] along one or more stored edges. So on [G1] the nodes 5 (no
    outgoing edge) and 6 (an edge to 4, on no cycle) are stored, have no
    edge to themselves, and get [False], not a one-name path. *)
Theorem path_exists_self_not_implicit :
  (forall (name_t : Type) (Heq : EqDec name_t) (attr : Type)
          (self : Graph name_t attr) (a : name_t) (p : list name_t),
      path_exists self a a = Some p ->
      clos_trans name_t (bucket_edge self) a a) /\
  (forall (name_t : Type) (Heq : EqDec name_t) (attr : Type)
          (self : Graph name_t attr) (a : name_t),
      path_exists self a a = Some [a] -> bucket_edge self a a) /\
  (forall (name_t : Type) (Heq : EqDec name_t) (attr : Type)
          (self : Graph name_t attr) (a : name_t),
      Dict.get a (edges self) [] = [] -> path_exists self a a = None) /\
  (forall (name_t : Type) (Heq : EqDec name_t) (attr : Type)
          (self : Graph name_t attr) (a : name_t),
      wf self ->
      (truthy (path_exists self a a) = true <-> reachable self a a)) /\
  (In 5 (Dict.keys (nodes G1)) /\
   ~ stored_edge G1 5 5 /\
   path_exists G1 5 5 = None /\
   path_exists G1 5 5 <> Some [5]) /\
  (In 6 (Dict.keys (nodes G1)) /\
   stored_edge G1 6 4 /\
   ~ stored_edge G1 6 6 /\
   path_exists G1 6 6 = None /\
   path_exists G1 6 6 <> Some [6]).
Proof.
  split; [|split; [|split; [|split; [|split]]]].
  - intros. now apply self_path_is_cycle with p.
  - intros. now apply trivial_path_needs_self_edge.
  - intros. now apply path_exists_no_outgoing.
  - intros name_t Heq attr self a Hwf. now apply path_exists_reach.
  - split; [in_list|]. split; [|split; [vm_compute; reflexivity|]].
    + intros (e & Hin & Hs & He). vm_compute in Hin.
      repeat (destruct Hin as [<-|Hin]; [discriminate|]). destruct Hin.
    + vm_compute. discriminate.
  - split; [in_list|]. split; [|split; [|split]].
    + exists (edge 6 4). split; [in_list | split; reflexivity].
    + intros (e & Hin & Hs & He). vm_compute in Hin.
      repeat (destruct Hin as [<-|Hin]; [discriminate|]). destruct Hin.
    + vm_compute. reflexivity.
    + vm_compute. discriminate.
Qed.

Lemma path_exists_self_not_implicit_witness :
  Dict.get 5 (edges G1) [] = [] /\ path_exists G1 5 5 = None /\
  path_exists G1 0 0 = Some [0; 1; 2; 3] /\
  clos_trans Z (bucket_edge G1) 0 0 /\
  wf G1 /\ (truthy (path_exists G1 6 6) = true <-> reachable G1 6 6).
Proof.
  destruct path_exists_self_not_implicit
    as (Hcycle & _ & Hnone & Hiff & _ & _).
  assert (Hb : Dict.get 5 (edges G1) [] = []) by (vm_compute; reflexivity).
  assert (Hp : path_exists G1 0 0 = Some [0; 1; 2; 3])
    by (vm_compute; reflexivity).
  split; [exact Hb|]. split; [exact (Hnone Z _ unit G1 5 Hb)|].
  split; [exact Hp|]. split; [exact (Hcycle Z _ unit G1 0 _ Hp)|].
  split; [apply wf_G1 | exact (Hiff Z _ unit G1 6 wf_G1)].
Defined.
End SelfPaths.
